(** * Chat client of the RAG assistant: content blocks, local echo, session and message list

    A shallow embedding of the Vue components of the front end:
    - [IAMessage.vue]   : [processMessage], [typeHandlers], [handlevote];
    - [HumanMessage.vue]: [getFileType], [getAudio], the user-side [processMessage];
    - [Doc.vue]         : [getFileName];
    - [ContentChat.vue] : [addMessage], [handleUserMessage], [handleBotMessage];
    - the chat view     : [fetchCHAT], [onMounted], [cleanChat].

    JavaScript strings are sequences of UTF-16 code units; regular
    expressions are run by backtracking matchers written in
    continuation-passing style, one combinator per regex construct. *)

From stdpp Require Import base numbers list option gmap strings.

Set Default Proof Using "Type".

(** ** JavaScript strings *)

Module JS.

(** A string value: its UTF-16 code units. *)
Definition jsstring : Type := list N.

(** An ASCII literal of the source, as code units. *)
Definition js (s : string) : jsstring :=
  Ascii.N_of_ascii <$> String.list_ascii_of_string s.

(** The code unit of a one-character ASCII literal. *)
Definition ch (s : string) : N := default 0%N (head (js s)).

(** Units without a printable literal. *)
Definition line_feed : N := 10.
Definition dquote : N := 34.

(** [s.slice(a, b)] for [0 <= a], [0 <= b] (the only calls the source makes). *)
Definition slice (a b : nat) (s : jsstring) : jsstring := take (b - a) (drop a s).

(** [s.slice(a)] *)
Definition slice_from (a : nat) (s : jsstring) : jsstring := drop a s.

(** [s.startsWith(p)] *)
Fixpoint startsWith (p s : jsstring) : bool :=
  match p, s with
  | [], _ => true
  | c :: p', d :: s' => bool_decide (c = d) && startsWith p' s'
  | _ :: _, [] => false
  end.

(** [s.includes(c)] for a one-unit needle. *)
Definition includes (c : N) (s : jsstring) : bool := bool_decide (c ∈ s).

(** WhiteSpace and LineTerminator code units, the ones [trim] strips. *)
Definition is_whitespace (c : N) : bool :=
  ((9 <=? c) && (c <=? 13) || (c =? 32) || (c =? 160) || (c =? 5760)
   || (8192 <=? c) && (c <=? 8202) || (c =? 8232) || (c =? 8233)
   || (c =? 8239) || (c =? 8287) || (c =? 12288) || (c =? 65279))%N.

Fixpoint trimStart (s : jsstring) : jsstring :=
  match s with
  | c :: s' => if is_whitespace c then trimStart s' else s
  | [] => []
  end.

Definition trimEnd (s : jsstring) : jsstring := reverse (trimStart (reverse s)).

(** [s.trim()] *)
Definition trim (s : jsstring) : jsstring := trimEnd (trimStart s).

(** [s.split(sep)] for a separator of one code unit: never an empty array. *)
Fixpoint split (sep : N) (s : jsstring) : list jsstring :=
  match s with
  | [] => [[]]
  | c :: s' =>
      if bool_decide (c = sep) then [] :: split sep s'
      else match split sep s' with
           | seg :: segs => (c :: seg) :: segs
           | [] => [[c]]
           end
  end.

(** [a.shift()] and [a.pop()]: the element taken ([None] is [undefined])
    and the array left behind. *)
Definition shift {A} (a : list A) : option A * list A := (head a, tail a).
Definition pop {A} (a : list A) : option A * list A := (last a, removelast a).

End JS.
Export JS.

(** ** Backtracking matchers *)

Module Regex.
Section combinators.
Context {R : Type}.

(** A literal run of code units. *)
Fixpoint lit (p s : jsstring) (k : jsstring → option R) : option R :=
  match p, s with
  | [], _ => k s
  | c :: p', d :: s' => if bool_decide (c = d) then lit p' s' k else None
  | _ :: _, [] => None
  end.

(** A capturing alternation of literals, tried left to right; a later
    alternative is tried when the continuation fails. *)
Fixpoint alt (ps : list jsstring) (s : jsstring)
    (k : jsstring → jsstring → option R) : option R :=
  match ps with
  | [] => None
  | p :: ps' =>
      match lit p s (k p) with
      | Some r => Some r
      | None => alt ps' s k
      end
  end.

(** A capturing lazy star over any code unit: the dot under the [s] flag,
    or the class of all units without it. The continuation is tried
    first, one more unit is consumed when it fails. *)
Fixpoint lazy_any (s acc : jsstring)
    (k : jsstring → jsstring → option R) : option R :=
  match k acc s with
  | Some r => Some r
  | None =>
      match s with
      | [] => None
      | c :: s' => lazy_any s' (acc ++ [c]) k
      end
  end.

(** The word class: ASCII letters, digits and underscore. *)
Definition is_word (c : N) : bool :=
  ((48 <=? c) && (c <=? 57) || (65 <=? c) && (c <=? 90) || (c =? 95)
   || (97 <=? c) && (c <=? 122))%N.

(** A capturing greedy star over the word class: one more unit is tried
    first, the continuation when that fails. *)
Fixpoint greedy_word (s acc : jsstring)
    (k : jsstring → jsstring → option R) : option R :=
  match s with
  | c :: s' =>
      if is_word c then
        match greedy_word s' (acc ++ [c]) k with
        | Some r => Some r
        | None => k acc s
        end
      else k acc s
  | [] => k acc s
  end.

End combinators.
End Regex.
Export Regex.

(** ** Abrupt completion *)

Inductive js_error := SyntaxError | TypeError.

(** The outcome of a call: a value, or a thrown exception. *)
Inductive completion (A : Type) :=
| Normal (a : A)
| Throw (e : js_error).
Arguments Normal {A} a.
Arguments Throw {A} e.

Definition bind {A B} (c : completion A) (f : A → completion B) : completion B :=
  match c with
  | Normal a => f a
  | Throw e => Throw e
  end.

Notation "'let*' x := c 'in' f" := (bind c (λ x, f))
  (at level 10, x name, c at level 100, f at level 200).

(** ** JSON.parse *)

Module Json.

(** A number token [±m·10^e]; JavaScript rounds it to a double. *)
Record jnumber := JNum { num_neg : bool; num_mantissa : N; num_exp10 : Z }.

Inductive json :=
| JNull
| JBool (b : bool)
| JNumber (n : jnumber)
| JString (s : jsstring)
| JArray (items : list json)
| JObject (members : list (jsstring * json)).

Definition is_json_ws (c : N) : bool :=
  ((c =? 9) || (c =? 10) || (c =? 13) || (c =? 32))%N.

Fixpoint skip_ws (s : jsstring) : jsstring :=
  match s with
  | c :: s' => if is_json_ws c then skip_ws s' else s
  | [] => []
  end.

Definition is_digit (c : N) : bool := ((48 <=? c) && (c <=? 57))%N.

(** The longest run of decimal digits at the head of [s], and the rest. *)
Fixpoint digits (s : jsstring) : list N * jsstring :=
  match s with
  | c :: s' =>
      if is_digit c then let '(ds, r) := digits s' in (c :: ds, r) else ([], s)
  | [] => ([], [])
  end.

Definition decimal (ds : list N) : N :=
  foldl (λ acc d, acc * 10 + (d - 48))%N 0%N ds.

(** A number token: an optional minus, an integer part without a leading
    zero, an optional fraction, an optional exponent. *)
Definition parse_number (s : jsstring) : option (jnumber * jsstring) :=
  let '(neg, s1) :=
    match s with
    | c :: r => if (c =? ch "-")%N then (true, r) else (false, s)
    | [] => (false, s)
    end in
  let '(ip, s2) := digits s1 in
  match ip with
  | [] => None
  | d :: ip' =>
      if (d =? ch "0")%N && negb (bool_decide (ip' = [])) then None
      else
        let frac :=
          match s2 with
          | c :: r =>
              if (c =? ch ".")%N then
                let '(fp, s3) := digits r in
                match fp with [] => None | _ => Some (fp, s3) end
              else Some ([], s2)
          | [] => Some ([], s2)
          end in
        match frac with
        | None => None
        | Some (fp, s3) =>
            let expo :=
              match s3 with
              | c :: r =>
                  if (c =? ch "e")%N || (c =? ch "E")%N then
                    let '(eneg, r1) :=
                      match r with
                      | c' :: r' =>
                          if (c' =? ch "-")%N then (true, r')
                          else if (c' =? ch "+")%N then (false, r')
                          else (false, r)
                      | [] => (false, r)
                      end in
                    let '(ep, s4) := digits r1 in
                    match ep with
                    | [] => None
                    | _ =>
                        let e := Z.of_N (decimal ep) in
                        Some (if eneg then (- e)%Z else e, s4)
                    end
                  else Some (0%Z, s3)
              | [] => Some (0%Z, s3)
              end in
            match expo with
            | None => None
            | Some (e, s4) =>
                Some (JNum neg (decimal (ip ++ fp))
                        (e - Z.of_nat (length fp))%Z, s4)
            end
        end
  end.

Definition hex_digit (c : N) : option N :=
  if is_digit c then Some (c - 48)%N
  else if ((97 <=? c) && (c <=? 102))%N then Some (c - 87)%N
  else if ((65 <=? c) && (c <=? 70))%N then Some (c - 55)%N
  else None.

(** The units after an opening quote, up to the closing one, escapes
    decoded; a control unit, a bad escape or a missing quote is an error. *)
Fixpoint parse_string_body (s acc : jsstring) : option (jsstring * jsstring) :=
  match s with
  | [] => None
  | c :: r =>
      if (c =? dquote)%N then Some (acc, r)
      else if (c <? 32)%N then None
      else if (c =? ch "\")%N then
        match r with
        | [] => None
        | e :: r1 =>
            if (e =? dquote)%N || (e =? ch "\")%N || (e =? ch "/")%N
            then parse_string_body r1 (acc ++ [e])
            else if (e =? ch "b")%N then parse_string_body r1 (acc ++ [8%N])
            else if (e =? ch "f")%N then parse_string_body r1 (acc ++ [12%N])
            else if (e =? ch "n")%N then parse_string_body r1 (acc ++ [10%N])
            else if (e =? ch "r")%N then parse_string_body r1 (acc ++ [13%N])
            else if (e =? ch "t")%N then parse_string_body r1 (acc ++ [9%N])
            else if (e =? ch "u")%N then
              match r1 with
              | h1 :: h2 :: h3 :: h4 :: r2 =>
                  match hex_digit h1, hex_digit h2, hex_digit h3, hex_digit h4 with
                  | Some a, Some b, Some c', Some d =>
                      parse_string_body r2
                        (acc ++ [((a * 16 + b) * 16 + c') * 16 + d]%N)
                  | _, _, _, _ => None
                  end
              | _ => None
              end
            else None
        end
      else parse_string_body r (acc ++ [c])
  end.

(** The descent, one layer at a time: a value, the elements of an
    array after its bracket, the members of an object after its brace.
    The arguments [value], [elements], [members] parse what is nested. *)
Definition value_step
    (elements : jsstring → list json → option (json * jsstring))
    (members : jsstring → list (jsstring * json) → option (json * jsstring))
    (s : jsstring) : option (json * jsstring) :=
  match skip_ws s with
  | [] => None
  | c :: r =>
      if (c =? ch "{")%N then
        match skip_ws r with
        | c' :: r' =>
            if (c' =? ch "}")%N then Some (JObject [], r')
            else members (c' :: r') []
        | [] => None
        end
      else if (c =? ch "[")%N then
        match skip_ws r with
        | c' :: r' =>
            if (c' =? ch "]")%N then Some (JArray [], r')
            else elements (c' :: r') []
        | [] => None
        end
      else if (c =? dquote)%N then
        match parse_string_body r [] with
        | Some (str, r') => Some (JString str, r')
        | None => None
        end
      else if startsWith (js "true") (c :: r) then Some (JBool true, drop 4 (c :: r))
      else if startsWith (js "false") (c :: r) then Some (JBool false, drop 5 (c :: r))
      else if startsWith (js "null") (c :: r) then Some (JNull, drop 4 (c :: r))
      else
        match parse_number (c :: r) with
        | Some (n, r') => Some (JNumber n, r')
        | None => None
        end
  end.

Definition elements_step
    (value : jsstring → option (json * jsstring))
    (elements : jsstring → list json → option (json * jsstring))
    (s : jsstring) (acc : list json) : option (json * jsstring) :=
  match value s with
  | Some (v, r) =>
      match skip_ws r with
      | c :: r' =>
          if (c =? ch ",")%N then elements r' (acc ++ [v])
          else if (c =? ch "]")%N then Some (JArray (acc ++ [v]), r')
          else None
      | [] => None
      end
  | None => None
  end.

Definition members_step
    (value : jsstring → option (json * jsstring))
    (members : jsstring → list (jsstring * json) → option (json * jsstring))
    (s : jsstring) (acc : list (jsstring * json)) : option (json * jsstring) :=
  match skip_ws s with
  | q :: r0 =>
      if (q =? dquote)%N then
        match parse_string_body r0 [] with
        | Some (key, r1) =>
            match skip_ws r1 with
            | c :: r2 =>
                if (c =? ch ":")%N then
                  match value r2 with
                  | Some (v, r3) =>
                      match skip_ws r3 with
                      | c' :: r4 =>
                          if (c' =? ch ",")%N
                          then members r4 (acc ++ [(key, v)])
                          else if (c' =? ch "}")%N
                          then Some (JObject (acc ++ [(key, v)]), r4)
                          else None
                      | [] => None
                      end
                  | None => None
                  end
                else None
            | [] => None
            end
        | None => None
        end
      else None
  | [] => None
  end.

(** Recursive descent: every layer spends one unit of [fuel]. *)
Fixpoint parse_value (fuel : nat) (s : jsstring) : option (json * jsstring) :=
  match fuel with
  | O => None
  | S fuel => value_step (parse_elements fuel) (parse_members fuel) s
  end
with parse_elements (fuel : nat) (s : jsstring) (acc : list json)
    : option (json * jsstring) :=
  match fuel with
  | O => None
  | S fuel => elements_step (parse_value fuel) (parse_elements fuel) s acc
  end
with parse_members (fuel : nat) (s : jsstring) (acc : list (jsstring * json))
    : option (json * jsstring) :=
  match fuel with
  | O => None
  | S fuel => members_step (parse_value fuel) (parse_members fuel) s acc
  end.

(** [JSON.parse(text)]: one value, surrounded by white space only. The
    fuel is enough for any text: more of it never changes the result. *)
Definition JSON_parse (text : jsstring) : completion json :=
  match parse_value (2 * length text + 2) text with
  | Some (v, r) =>
      match skip_ws r with
      | [] => Normal v
      | _ :: _ => Throw SyntaxError
      end
  | None => Throw SyntaxError
  end.

(** The own property [k] of an object: of a repeated key the last wins. *)
Definition own_property (k : jsstring) (members : list (jsstring * json))
    : option json :=
  snd <$> last (filter (λ kv, kv.1 = k) members).

(** [v.k] for a property name [k] that no prototype defines: [undefined]
    ([None]) unless [v] is an object that has it; [null.k] throws. *)
Definition get (v : json) (k : jsstring) : completion (option json) :=
  match v with
  | JNull => Throw TypeError
  | JObject members => Normal (own_property k members)
  | _ => Normal None
  end.

(** The double nearest to [m·10^e] is zero: [m] is, or the value is at
    most [2^-1075], half the least subnormal. *)
Definition rounds_to_zero (n : jnumber) : bool :=
  ((num_mantissa n =? 0)%N
   || ((num_exp10 n <? 0)
       && (Z.of_N (num_mantissa n) * 2 ^ 1075 <=? 10 ^ (- num_exp10 n))))%Z.

(** ToBoolean of a parsed value. *)
Definition truthy (v : json) : bool :=
  match v with
  | JNull => false
  | JBool b => b
  | JNumber n => negb (rounds_to_zero n)
  | JString s => negb (bool_decide (s = []))
  | JArray _ | JObject _ => true
  end.

(** [x || d] for a possibly undefined [x]. *)
Definition or_default (x : option json) (d : json) : json :=
  match x with
  | Some v => if truthy v then v else d
  | None => d
  end.

End Json.
Export Json.

(** ** Rendered markup *)

(** What [v-html] receives: a string of the program, or the string
    [marked.parse(src, {breaks})] returns, kept as the call itself since
    the renderer is a library outside the repository. *)
Inductive html :=
| Raw (s : jsstring)
| Marked (breaks : bool) (src : jsstring).

(** ** Messages *)

(** The [id] of a message: a position-based count for a user message, a
    draw of [Math.random()] for an assistant message. *)
Inductive msg_id :=
| IdCount (n : nat)
| IdRandom (r : N).

(** An element of the message list; an absent field is [None] or [false]. *)
Record message := Message {
  id : option msg_id;
  isUser : bool;
  text : option jsstring;
  isLoading : bool;
  isFirst : option bool;
  isError : bool;
  sources : option json
}.

(** The assignment [m.isFirst = b]. *)
Definition set_isFirst (b : bool) (m : message) : message :=
  Message (id m) (isUser m) (text m) (isLoading m) (Some b) (isError m) (sources m).

(** ** The assistant bubble: content blocks *)

Module IAMessage.

(** An entry of [extractedContent]. *)
Inductive block :=
| Block (type : jsstring) (value : html)
| CodeBlock (value : html) (lang : jsstring)
| ChartBlock (chartType data : option json) (options : json)
| CardBlock (value : json)
| MapBlock (xy ubication : option json).

(** The [type] field of an entry. *)
Definition block_type (b : block) : jsstring :=
  match b with
  | Block type _ => type
  | CodeBlock _ _ => js "code"
  | ChartBlock _ _ _ => js "chart"
  | CardBlock _ => js "card"
  | MapBlock _ _ => js "map"
  end.

Definition cleanContent (content : jsstring) : html :=
  Marked true (trim content).

(** The fence pattern of the [code] handler: three backquotes, a greedy
    run of word units (group 1), a line feed, a lazy run of any units
    (group 2), three backquotes. *)
Definition fence_at (s : jsstring) : option (jsstring * jsstring) :=
  lit (js "```") s (λ s1,
  greedy_word s1 [] (λ g1 s2,
  lit [line_feed] s2 (λ s3,
  lazy_any s3 [] (λ g2 s4,
  lit (js "```") s4 (λ _, Some (g1, g2)))))).

(** [exec] without the [g] flag: the match at the least start index. *)
Fixpoint fence_exec (s : jsstring) : option (jsstring * jsstring) :=
  match fence_at s with
  | Some r => Some r
  | None =>
      match s with
      | [] => None
      | _ :: s' => fence_exec s'
      end
  end.

Definition handle_code (p2 : jsstring) : completion block :=
  let codeMatch := fence_exec p2 in
  Normal (CodeBlock
    (cleanContent (match codeMatch with Some (_, g2) => g2 | None => p2 end))
    (match codeMatch with Some (g1, _) => g1 | None => js "plain-text" end)).

Definition handle_chart (p2 : jsstring) : completion block :=
  let* chartData := JSON_parse p2 in
  let* logged := get chartData (js "data") in
  let* type := get chartData (js "type") in
  let* data := get chartData (js "data") in
  let* options := get chartData (js "options") in
  Normal (ChartBlock type data (or_default options (JObject []))).

Definition handle_card (p2 : jsstring) : completion block :=
  let* cardData := JSON_parse p2 in
  Normal (CardBlock cardData).

Definition handle_map (p2 : jsstring) : completion block :=
  let* mapData := JSON_parse p2 in
  let* xy := get mapData (js "xy") in
  let* ubication := get mapData (js "ubication") in
  Normal (MapBlock xy ubication).

(** The table of handlers: [code], [chart], [card], [map]; the entries
    for [doc] and [table] are commented out in the source. *)
Definition typeHandlers : list (jsstring * (jsstring → completion block)) :=
  [ (js "code", handle_code); (js "chart", handle_chart);
    (js "card", handle_card); (js "map", handle_map) ].

(** [typeHandlers[p1]] *)
Definition lookup_handler (p1 : jsstring) : option (jsstring → completion block) :=
  (λ r, r.2.2) <$> list_find (λ e, e.1 = p1) typeHandlers.

(** The handler used for a match: the table's, or the fallback closure. *)
Definition handler_for (p1 : jsstring) : jsstring → completion block :=
  match lookup_handler p1 with
  | Some h => h
  | None => λ p2, Normal (Block p1 (cleanContent p2))
  end.

(** The alternatives of group 1 of [regex], in the order of the source. *)
Definition kinds : list jsstring :=
  [ js "citations"; js "table"; js "chart"; js "code";
    js "doc"; js "image"; js "card"; js "map" ].

(** One match of [regex]. *)
Record rmatch := RMatch {
  m_match : jsstring;   (* the matched text *)
  m_p1 : jsstring;      (* group 1: the tag name *)
  m_p2 : jsstring;      (* group 2: the content *)
  m_offset : nat        (* the index of the match *)
}.

(** [regex] tried at the head of [s]: the opening tag of one of [kinds],
    a lazy run of any units (the [s] flag), the closing tag of the same
    name (the back-reference). Gives the groups and the unmatched rest. *)
Definition regex_at (s : jsstring) : option (jsstring * jsstring * jsstring) :=
  lit (js "<") s (λ s1,
  alt kinds s1 (λ p1 s2,
  lit (js ">") s2 (λ s3,
  lazy_any s3 [] (λ p2 s4,
  lit (js "</") s4 (λ s5,
  lit p1 s5 (λ s6,
  lit (js ">") s6 (λ s7, Some (p1, p2, s7)))))))).

(** The matches of the global [regex] in a text, left to right: [pos] is
    the index of the head of [s] in the text, [lastIndex] the end of the
    previous match, below which no match may start. *)
Fixpoint matches_from (pos lastIndex : nat) (s : jsstring) : list rmatch :=
  match s with
  | [] => []
  | _ :: s' =>
      if bool_decide (pos < lastIndex) then matches_from (S pos) lastIndex s'
      else
        match regex_at s with
        | Some (p1, p2, rest) =>
            let len := length s - length rest in
            RMatch (take len s) p1 p2 pos
              :: matches_from (S pos) (pos + len) s'
        | None => matches_from (S pos) lastIndex s'
        end
  end.

Definition regex_matches (text : jsstring) : list rmatch :=
  matches_from 0 0 text.

(** A source span: the indices [from, to) of the message text. *)
Definition span : Type := nat * nat.

(** The state [processMessage] works on: its local [lastIndex] and the
    component's [extractedContent]. Each entry is kept with the span of
    the message it was made from; the span is not data of the program. *)
Record pm_state := PM {
  lastIndex : nat;
  entries : list (span * block)
}.

Definition push (sp : span) (b : block) (st : pm_state) : pm_state :=
  PM (lastIndex st) (entries st ++ [(sp, b)]).

(** The callback given to [replace], run on one match. An exception of
    the handler leaves the state as it is at the throw. *)
Definition replacer (messageText : jsstring) (st : pm_state) (m : rmatch)
    : pm_state * option js_error :=
  let offset := m_offset m in
  let st1 :=
    if bool_decide (lastIndex st < offset) then
      push (lastIndex st, offset)
        (Block (js "text")
           (cleanContent (trim (slice (lastIndex st) offset messageText)))) st
    else st in
  match handler_for (m_p1 m) (m_p2 m) with
  | Normal b =>
      let st2 := push (offset, offset + length (m_match m)) b st1 in
      (PM (offset + length (m_match m)) (entries st2), None)
  | Throw e => (st1, Some e)
  end.

(** [replace] calls the callback on the matches in order, until one throws. *)
Fixpoint run_replacer (messageText : jsstring) (st : pm_state)
    (ms : list rmatch) : pm_state * option js_error :=
  match ms with
  | [] => (st, None)
  | m :: ms' =>
      match replacer messageText st m with
      | (st', None) => run_replacer messageText st' ms'
      | (st', Some e) => (st', Some e)
      end
  end.

(** [processMessage] on a message text and the entries already there:
    the entries afterwards with their spans, and the exception if one
    escaped. *)
Definition processMessage_spans (messageText : jsstring)
    (extracted : list (span * block)) : list (span * block) * option js_error :=
  match run_replacer messageText (PM 0 extracted) (regex_matches messageText) with
  | (st, Some e) => (entries st, Some e)
  | (st, None) =>
      if bool_decide (lastIndex st < length messageText) then
        (entries
           (push (lastIndex st, length messageText)
              (Block (js "text")
                 (cleanContent (trim (slice_from (lastIndex st) messageText))))
              st), None)
      else (entries st, None)
  end.

(** [extractedContent] after the mount hook of a message that is not
    loading: [processMessage] on the empty array. *)
Definition processMessage (messageText : jsstring)
    : list block * option js_error :=
  let '(es, e) := processMessage_spans messageText [] in (es.*2, e).

(** The vote of the bubble: [selectedVote] ([None] is [null]) and the
    calls of [api.requestVote] the handler attempted, oldest first. *)
Record vote_state := VoteState {
  selectedVote : option bool;
  voteCalls : list (option msg_id * bool)
}.

Definition handlevote (msg : message) (vote : bool) (st : vote_state)
    : vote_state :=
  match selectedVote st with
  | None => VoteState (Some vote) (voteCalls st ++ [(id msg, vote)])
  | Some _ => st
  end.

End IAMessage.

(** ** The file card *)

Module Doc.

(** [fileName.split('@').pop().split('/').pop().split('.').shift()];
    [None] would be a call on [undefined]. *)
Definition getFileName (fileName : jsstring) : option jsstring :=
  a ← (pop (split (ch "@") fileName)).1;
  b ← (pop (split (ch "/") a)).1;
  (shift (split (ch ".") b)).1.

End Doc.

(** ** The user bubble: the local echo *)

Module HumanMessage.

(** [fileName.split('@').shift()] *)
Definition getFileType (fileName : jsstring) : option jsstring :=
  (shift (split (ch "@") fileName)).1.

(** The refs of the component. *)
Record refs := Refs {
  urlaudio : option jsstring;
  textaudio : option jsstring;
  messageHtml : html;
  isMarkdown : bool
}.

Definition initial : refs := Refs (Some []) (Some []) (Raw []) false.

(** [getAudio]: the last [@]-segment is split on [#]; [shift] takes its
    first piece, [pop] the last of the pieces left. *)
Definition getAudio (text : jsstring) (r : refs) : option refs :=
  seg ← (pop (split (ch "@") text)).1;
  let audio := split (ch "#") seg in
  let '(t, audio1) := shift audio in
  let '(u, _) := pop audio1 in
  Some (Refs u t (messageHtml r) (isMarkdown r)).

(** The class [*_`#-] of [markdownPattern]. *)
Definition markdownPattern_test (text : jsstring) : bool :=
  bool_decide (Exists (λ c, c ∈ [ch "*"; ch "_"; ch "`"; ch "#"; ch "-"]) text).

Definition processMessage (text : jsstring) (r : refs) : refs :=
  if bool_decide (getFileType text ≠ Some (js "audio"))
     && bool_decide (getFileType text ≠ Some (js "file")) then
    if negb (includes line_feed text) && negb (markdownPattern_test text) then
      Refs (urlaudio r) (textaudio r) (Raw text) false
    else
      Refs (urlaudio r) (textaudio r) (Marked false text) true
  else r.

(** The mount hook. *)
Definition onMounted (text : jsstring) : option refs :=
  processMessage text <$> getAudio text initial.

(** What the template shows, by its [v-if] chain. *)
Inductive view :=
| FileView (displayName : option jsstring)
| AudioView (transcript url : option jsstring)
| TextView (content : html) (plain : bool).

Definition render (text : jsstring) : option view :=
  r ← onMounted text;
  Some (if bool_decide (getFileType text = Some (js "file")) then
          FileView (Doc.getFileName text)
        else if bool_decide (getFileType text = Some (js "audio")) then
          AudioView (textaudio r) (urlaudio r)
        else TextView (messageHtml r) (negb (isMarkdown r))).

End HumanMessage.

(** ** The message list *)

Module ContentChat.

(** The third argument of [addMessage]: a string for a user message, an
    object for an assistant message. *)
Inductive new_message :=
| Text (s : jsstring)
| Object (m : message).

Definition as_text (n : new_message) : option jsstring :=
  match n with Text s => Some s | Object m => text m end.

Definition as_object (n : new_message) : message :=
  match n with
  | Object m => m
  | Text _ => Message None false None false None false None
  end.

(** [messages.value.pop()], the array afterwards. *)
Definition pop_message (messages : list message) : list message :=
  (pop messages).2.

Definition handleUserMessage (isLoading : bool) (newMessage : option jsstring)
    (messages : list message) : list message :=
  if isLoading then
    messages ++ [Message None true (Some (js "procesando audio...")) true None false None]
  else
    let messages1 :=
      match last messages with
      | Some m => if isUser m then pop_message messages else messages
      | None => messages
      end in
    messages1 ++
      [Message (Some (IdCount (length messages1 + 1))) true newMessage false None false None].

Definition handleBotMessage (isLoading : bool) (newMessage : message)
    (messages : list message) : list message :=
  if isLoading then
    messages ++ [Message None false None true None false None]
  else
    let newMessage1 :=
      if bool_decide (length messages = 0) then set_isFirst true newMessage
      else set_isFirst false newMessage in
    pop_message messages ++ [newMessage1].

Definition addMessage (isUser isLoading : bool) (newMessage : new_message)
    (messages : list message) : list message :=
  if isUser then handleUserMessage isLoading (as_text newMessage) messages
  else handleBotMessage isLoading (as_object newMessage) messages.

(** The greeting: an inverted exclamation mark, a waving hand (a
    surrogate pair) and ASCII text. *)
Definition greeting_text : jsstring :=
  [161%N] ++ js "Hola! " ++ [55357%N; 56395%N]
  ++ js " Soy tu asistente virtual, listo para ayudarte en lo que necesites.".

Definition greeting (random : N) : message :=
  Message (Some (IdRandom random)) false (Some greeting_text) false None false None.

Definition cleanMessages (random : N) (messages : list message) : list message :=
  if bool_decide (1 < length messages)
  then addMessage false false (Object (greeting random)) []
  else messages.

End ContentChat.

(** ** The chat view: requests and the stored session *)

Module ChatView.
Import ContentChat.

(** The page: the message list of [ContentChat] and [localStorage]. *)
Record page := Page {
  messages : list message;
  localStorage : gmap jsstring jsstring
}.

(** The body of [POST /chat/query]. *)
Record chat_request := ChatRequest {
  query : jsstring;
  session_id : option jsstring
}.

(** The fields of the reply that [fetchCHAT] reads. *)
Record chat_result := ChatResult {
  response : option jsstring;
  result_session_id : option jsstring;
  result_sources : option json
}.

(** How the awaited [api.requestCHAT] settles. *)
Inductive settlement :=
| Resolved (result : chat_result)
| Rejected.

(** A string in a condition: the empty string is falsy. *)
Definition truthy_string (s : jsstring) : bool := negb (bool_decide (s = [])).

(** [data] as [fetchCHAT] builds it from the argument and the storage. *)
Definition build_request (msg : jsstring) (storage : gmap jsstring jsstring)
    : chat_request :=
  let sessionId := storage !! js "session_id" in
  ChatRequest msg
    (match sessionId with
     | Some v =>
         if truthy_string v && startsWith (js "sess_") v then Some v else None
     | None => None
     end).

(** [fetchCHAT] up to its [await]: the two messages are added and the
    request is sent. *)
Definition fetchCHAT_send (msg : jsstring) (p : page) : page * chat_request :=
  let messages1 := addMessage true false (Text msg) (messages p) in
  let messages2 := addMessage false true (Text []) messages1 in
  (Page messages2 (localStorage p), build_request msg (localStorage p)).

Definition error_text : jsstring :=
  js "Lo siento, ha ocurrido un error. Por favor, intenta de nuevo.".

Definition error_message (random : N) : message :=
  Message (Some (IdRandom random)) false (Some error_text) false None true None.

(** [fetchCHAT] from the settlement on: the [try] body after the
    [await], or the [catch] block. *)
Definition fetchCHAT_settle (s : settlement) (random : N) (p : page) : page :=
  match s with
  | Resolved result =>
      let storage :=
        match result_session_id result with
        | Some sid =>
            if truthy_string sid then <[js "session_id" := sid]> (localStorage p)
            else localStorage p
        | None => localStorage p
        end in
      let processedResult :=
        Message (Some (IdRandom random)) false (response result) false None false
          (Some (or_default (result_sources result) (JArray []))) in
      Page (addMessage false false (Object processedResult) (messages p)) storage
  | Rejected =>
      Page (addMessage false false (Object (error_message random)) (messages p))
        (localStorage p)
  end.

(** One run of [fetchCHAT], with nothing else run during the [await]. *)
Definition fetchCHAT (msg : jsstring) (s : settlement) (random : N) (p : page)
    : page :=
  fetchCHAT_settle s random (fetchCHAT_send msg p).1.

Definition cleanChat (random : N) (p : page) : page :=
  Page (cleanMessages random (messages p)) (delete (js "session_id") (localStorage p)).

(** The mount hook of the view. *)
Definition onMounted (random : N) (p : page) : page :=
  let storage1 := <[js "transcription" := js "null"]> (localStorage p) in
  let existingSessionId := storage1 !! js "session_id" in
  let storage2 :=
    match existingSessionId with
    | Some v =>
        if truthy_string v && negb (startsWith (js "sess_") v)
        then delete (js "session_id") storage1
        else storage1
    | None => storage1
    end in
  Page (addMessage false false (Object (greeting random)) (messages p)) storage2.

End ChatView.

(** ** Vocabulary of the specification *)

Module Spec.
Import IAMessage.

(** Spans that follow one another from [a] to [b], none of them empty. *)
Fixpoint contiguous (a : nat) (sps : list span) (b : nat) : Prop :=
  match sps with
  | [] => a = b
  | sp :: sps' => sp.1 = a ∧ sp.1 < sp.2 ∧ contiguous sp.2 sps' b
  end.

(** The untrimmed source text of the spans, put end to end. *)
Definition span_text (text : jsstring) (sps : list span) : jsstring :=
  concat ((λ sp : span, slice sp.1 sp.2 text) <$> sps).

(** The untagged spans around the matches [ms] between [lo] and [hi]:
    before the first, between two neighbours, after the last. *)
Fixpoint gaps_from (lo : nat) (ms : list rmatch) (hi : nat) : list span :=
  match ms with
  | [] => [(lo, hi)]
  | m :: ms' =>
      (lo, m_offset m) :: gaps_from (m_offset m + length (m_match m)) ms' hi
  end.

Definition untagged_spans (text : jsstring) : list span :=
  gaps_from 0 (regex_matches text) (length text).

(** The [text] entry made of the span [sp] of a message. *)
Definition text_entry (text : jsstring) (sp : span) : span * block :=
  (sp, Block (js "text") (cleanContent (trim (slice sp.1 sp.2 text)))).

(** Matches laid out in order at or after [lo]: each one non-empty,
    inside the text, of a kind of the pattern, and starting no earlier
    than the end of the one before. *)
Fixpoint well_placed (text : jsstring) (lo : nat) (ms : list rmatch) : Prop :=
  match ms with
  | [] => True
  | m :: ms' =>
      lo ≤ m_offset m ∧ 0 < length (m_match m)
      ∧ m_offset m + length (m_match m) ≤ length text
      ∧ m_p1 m ∈ kinds
      ∧ well_placed text (m_offset m + length (m_match m)) ms'
  end.

(** What the callback pushes for the untagged span from [a] to [b]. *)
Definition gap_entries (text : jsstring) (a b : nat) : list (span * block) :=
  if bool_decide (a < b) then [text_entry text (a, b)] else [].

(** The span of a match. *)
Definition match_span (m : rmatch) : span :=
  (m_offset m, m_offset m + length (m_match m)).

(** [p] occurs in [s] as a run of adjacent units. *)
Definition occurs (p s : jsstring) : Prop := ∃ a b, s = a ++ p ++ b.

(** The same, as a test: [s.includes(p)]. *)
Fixpoint contains (p s : jsstring) : bool :=
  startsWith p s
  || match s with
     | [] => false
     | _ :: s' => contains p s'
     end.

(** The kinds of the pattern that have no entry in [typeHandlers]. *)
Definition generic_kinds : list jsstring :=
  [ js "citations"; js "table"; js "doc"; js "image" ].

(** The kinds whose handler parses JSON. *)
Definition structured_kinds : list jsstring :=
  [ js "chart"; js "card"; js "map" ].

(** The units a language token may be made of: the ASCII letters, the
    digits and the underscore, written out. *)
Definition word_alphabet : jsstring :=
  js "ABCDEFGHIJKLMNOPQRSTUVWXYZabcdefghijklmnopqrstuvwxyz0123456789_".

(** [p2] holds a fenced region: three backquotes, a language token made
    of units of the alphabet (it may be empty), a line feed right after
    the token, a body, three backquotes. *)
Definition fenced (p2 lang body : jsstring) : Prop :=
  ∃ pre post,
    p2 = pre ++ js "```" ++ lang ++ [line_feed] ++ body ++ js "```" ++ post
    ∧ Forall (λ c, c ∈ word_alphabet) lang.

(** The fenced sub-pattern as the specification words it, a leading
    language token plus a body: the token is any non-empty run without
    white space and without backquote, up to the end of the line. *)
Definition fenced_as_worded (p2 lang body : jsstring) : Prop :=
  ∃ pre post,
    p2 = pre ++ js "```" ++ lang ++ [line_feed] ++ body ++ js "```" ++ post
    ∧ lang ≠ []
    ∧ Forall (λ c, is_whitespace c = false ∧ c ≠ ch "`") lang.

(** The default language as the specification writes it. *)
Definition sentinel_as_worded : jsstring := js "plain text".

(** The policies the specification names for a malformed payload, as
    block lists: the malformed block alone is left out, or the message
    yields nothing. *)
Fixpoint run_skipping (messageText : jsstring) (st : pm_state)
    (ms : list rmatch) : pm_state :=
  match ms with
  | [] => st
  | m :: ms' =>
      match replacer messageText st m with
      | (st', None) => run_skipping messageText st' ms'
      | (st', Some _) =>
          run_skipping messageText
            (PM (m_offset m + length (m_match m)) (entries st')) ms'
      end
  end.

Definition skip_block_policy (messageText : jsstring) : list block :=
  let st := run_skipping messageText (PM 0 []) (regex_matches messageText) in
  (if bool_decide (lastIndex st < length messageText) then
     entries st ++ [text_entry messageText (lastIndex st, length messageText)]
   else entries st).*2.

Definition abort_parse_policy : list block := [].

(** Cuts of a string at the first or the last occurrence of a unit. *)
Fixpoint before_first (c : N) (s : jsstring) : jsstring :=
  match s with
  | [] => []
  | d :: s' => if bool_decide (d = c) then [] else d :: before_first c s'
  end.

Fixpoint after_first (c : N) (s : jsstring) : jsstring :=
  match s with
  | [] => []
  | d :: s' => if bool_decide (d = c) then s' else after_first c s'
  end.

Fixpoint before_last (c : N) (s : jsstring) : jsstring :=
  match s with
  | [] => []
  | d :: s' =>
      if bool_decide (c ∈ s') then d :: before_last c s'
      else if bool_decide (d = c) then [] else d :: s'
  end.

(** After the last occurrence; the whole string when there is none. *)
Fixpoint after_last (c : N) (s : jsstring) : jsstring :=
  match s with
  | [] => []
  | d :: s' =>
      if bool_decide (c ∈ s') then after_last c s'
      else if bool_decide (d = c) then s' else d :: s'
  end.

(** The local echo in terms of cuts: the marker is what precedes the
    first [@]; the payload is what follows the last [@]. An audio echo
    shows the payload up to its first [#] and plays what follows its
    last [#], if it has one; a file echo shows the payload after its
    last [/] up to its first [.]; any other text is shown as it is when
    it has no line feed and none of the markup units, and rendered as
    markup otherwise. *)
Definition echo_view (text : jsstring) : HumanMessage.view :=
  let marker := before_first (ch "@") text in
  let payload := after_last (ch "@") text in
  if bool_decide (marker = js "file") then
    HumanMessage.FileView (Some (before_first (ch ".") (after_last (ch "/") payload)))
  else if bool_decide (marker = js "audio") then
    HumanMessage.AudioView (Some (before_first (ch "#") payload))
      (if bool_decide (ch "#" ∈ payload) then Some (after_last (ch "#") payload) else None)
  else
    let plain :=
      negb (includes line_feed text) && negb (HumanMessage.markdownPattern_test text) in
    HumanMessage.TextView (if plain then Raw text else Marked false text) plain.

(** The audio echo as the specification words it: of the remainder
    after the first [@], the transcript is what precedes the last [#]
    and the URL what follows it. *)
Definition worded_audio (text : jsstring) : HumanMessage.view :=
  let remainder := after_first (ch "@") text in
  HumanMessage.AudioView (Some (before_last (ch "#") remainder))
    (Some (after_last (ch "#") remainder)).

End Spec.

(** ** The input box *)

Module InputChat.

(** The payload of the [pushed_message] event. *)
Record pushed := Pushed { pushed_type : jsstring; pushed_data : jsstring }.

Definition canSend (messageText : jsstring) : bool :=
  bool_decide (0 < length (trim messageText)).

(** [sendMessage]: the event emitted, if any, and [messageText] afterwards. *)
Definition sendMessage (messageText : jsstring) : option pushed * jsstring :=
  if canSend messageText
  then (Some (Pushed (js "text") (trim messageText)), [])
  else (None, messageText).

(** [handleKeyPress] on a key event: its [key] and [shiftKey]. *)
Definition handleKeyPress (key : jsstring) (shiftKey : bool)
    (messageText : jsstring) : option pushed * jsstring :=
  if bool_decide (key = js "Enter") && negb shiftKey
  then sendMessage messageText
  else (None, messageText).

End InputChat.

(** ** The API client *)

Module Api.

(** The methods of the object [api.js] exports; a call of any other
    name is a call of [undefined], a [TypeError]. *)
Definition methods : list jsstring :=
  [ js "requestCHAT"; js "createSession"; js "getSession";
    js "clearSessionHistory" ].

End Api.

(** ** The chat view: events *)

Module ChatEvents.
Import ContentChat ChatView.

(** How the upload would settle on the network. *)
Inductive upload_settlement :=
| UploadResolved (result : message)
| UploadRejected.

(** [await api.requestAttachment(formData)] inside the [try]: the
    network answers only if the client has the method. *)
Definition requestAttachment (network : upload_settlement) : upload_settlement :=
  if bool_decide (js "requestAttachment" ∈ Api.methods) then network
  else UploadRejected.

(** The assignment [result['isUser'] = false]. *)
Definition set_isUser_false (m : message) : message :=
  Message (id m) false (text m) (isLoading m) (isFirst m) (isError m) (sources m).

(** [loadAttachment] for a file of the given name: the echo and the
    placeholder are added; a result replaces the placeholder, a failure
    is only logged. *)
Definition loadAttachment (fileName : jsstring) (network : upload_settlement)
    (p : page) : page :=
  let messages1 :=
    addMessage true false (Text (js "file@" ++ fileName)) (messages p) in
  let messages2 := addMessage false true (Text []) messages1 in
  match requestAttachment network with
  | UploadResolved result =>
      Page (addMessage false false (Object (set_isUser_false result)) messages2)
        (localStorage p)
  | UploadRejected => Page messages2 (localStorage p)
  end.

(** What a call of [UpChat] leaves besides the page: the chat request
    it sent, the [ReferenceError] of the call of [fetchAUDIO] (its
    definition is commented out), or nothing. *)
Inductive upchat_outcome :=
| Requested (request : chat_request)
| FetchAudioUndefined
| NoAction.

(** [UpChat], up to the [await] of [fetchCHAT]. *)
Definition UpChat (m : InputChat.pushed) (p : page) : page * upchat_outcome :=
  if bool_decide (InputChat.pushed_type m = js "audio") then
    (Page (addMessage true true (Text []) (messages p)) (localStorage p),
     FetchAudioUndefined)
  else if bool_decide (InputChat.pushed_type m = js "text") then
    let '(p', request) := fetchCHAT_send (InputChat.pushed_data m) p in
    (p', Requested request)
  else (p, NoAction).

(** What happens to the view, one event at a time. *)
Inductive event :=
| Mounted (random : N)
| MessagePushed (m : InputChat.pushed)
| ChatSettled (s : settlement) (random : N)
| FileLoaded (fileName : jsstring) (network : upload_settlement)
| CleanClicked (random : N).

Definition handle (e : event) (p : page) : page :=
  match e with
  | Mounted random => onMounted random p
  | MessagePushed m => (UpChat m p).1
  | ChatSettled s random => fetchCHAT_settle s random p
  | FileLoaded fileName network => loadAttachment fileName network p
  | CleanClicked random => cleanChat random p
  end.

Definition run (events : list event) (p : page) : page :=
  foldl (λ p e, handle e p) p events.

End ChatEvents.

(** ** The file card: type and colour *)

Module DocCard.

(** [toUpperCase] of an ASCII unit. *)
Definition upper_unit (c : N) : N :=
  if ((97 <=? c) && (c <=? 122))%N then (c - 32)%N else c.

(** [s.toUpperCase()]: unit by unit on an ASCII string; on any other
    string it is what the argument [beyond_ascii] gives. *)
Definition toUpperCase (beyond_ascii : jsstring → jsstring) (s : jsstring)
    : jsstring :=
  if forallb (λ c, (c <? 128)%N) s then upper_unit <$> s else beyond_ascii s.

Definition getFileType (beyond_ascii : jsstring → jsstring)
    (fileName : jsstring) : option jsstring :=
  last_segment ← (pop (split (ch ".") fileName)).1;
  let extension := toUpperCase beyond_ascii last_segment in
  Some (if ChatView.truthy_string extension then extension else js "DOC").

Definition getFileOwn (fileName : jsstring) : bool :=
  bool_decide ((shift (split (ch "@") fileName)).1 ≠ Some (js "file")).

Definition getBackgroundColor (beyond_ascii : jsstring → jsstring)
    (fileName : jsstring) : option jsstring :=
  extension ← getFileType beyond_ascii fileName;
  Some (if bool_decide (extension = js "PDF") then js "rgb(238, 67, 67)"
        else if bool_decide (extension = js "DOC")
                || bool_decide (extension = js "DOCX")
        then js "rgb(79, 165, 236)"
        else if bool_decide (extension = js "XLS")
                || bool_decide (extension = js "XLSX")
        then js "rgb(78, 241, 78)"
        else js "rgb(197, 197, 197)").

End DocCard.

(** ** More vocabulary *)

Module Spec2.
Import IAMessage.

(** The text of a tagged region of kind [k] with content [c]. *)
Definition region (k c : jsstring) : jsstring :=
  js "<" ++ k ++ js ">" ++ c ++ js "</" ++ k ++ js ">".

(** What the view keeps true of its message list: only the message at
    index 0 can have [isFirst] set, and a user message that has a
    count as [id] sits at the index before that count. *)
Definition well_numbered (messages : list message) : Prop :=
  ∀ i m, messages !! i = Some m →
    (isFirst m = Some true → i = 0)
    ∧ (isUser m = true → ∀ n, id m = Some (IdCount n) → n = i + 1).

(** A match whose handler throws: a [chart], [card] or [map] region
    whose content is not JSON, or a [chart] or [map] region whose
    content is the JSON [null]. *)
Definition bad_payload (m : rmatch) : Prop :=
  (m_p1 m ∈ Spec.structured_kinds ∧ JSON_parse (m_p2 m) = Throw SyntaxError)
  ∨ (m_p1 m ∈ [js "chart"; js "map"] ∧ JSON_parse (m_p2 m) = Normal JNull).

(** The values [||] replaces: [null], [false], a number that is zero
    as a double, the empty string. *)
Definition falsy (v : json) : Prop :=
  v = JNull ∨ v = JBool false
  ∨ (∃ n, v = JNumber n ∧ rounds_to_zero n = true)
  ∨ v = JString [].

(** ASCII strings. *)
Definition is_ascii (s : jsstring) : bool := forallb (λ c, (c <? 128)%N) s.

End Spec2.

(** ** The assistant bubbles of the view *)

Module Bubbles.
Import IAMessage ChatView.

(** One assistant bubble: the message it is given and its
    [extractedContent]. *)
Record bubble := Bubble { msg : message; extractedContent : list block }.

(** The mount hook of the bubble: nothing for a loading message,
    [processMessage] otherwise, whose pushes go onto [extractedContent].
    A message without text makes [messageText.replace] a call on
    [undefined]. *)
Definition onMounted (b : bubble) : bubble * option js_error :=
  if isLoading (msg b) then (b, None)
  else
    match text (msg b) with
    | Some messageText =>
        let '(blocks, e) := processMessage messageText in
        (Bubble (msg b) (extractedContent b ++ blocks), e)
    | None => (b, Some TypeError)
    end.

(** What the components of the conversation hold: the page of the chat
    view and the assistant bubbles, in the order of the list. *)
Record view := View { view_page : page; bubbles : list bubble }.

(** The mount hook of the bubble at index [i], run in the view: the
    view afterwards and the exception that left the hook, if any. *)
Definition mount (i : nat) (v : view) : view * option js_error :=
  match bubbles v !! i with
  | Some b =>
      let '(b', e) := onMounted b in
      (View (view_page v) (<[i := b']> (bubbles v)), e)
  | None => (v, None)
  end.

End Bubbles.

(** * Properties *)

(** A closed decidable proposition, settled by evaluation. *)
Ltac by_decision :=
  match goal with
  | |- ?P => refine (bool_decide_eq_true_1 P _); vm_compute; reflexivity
  end.

(** ** Strings and matchers *)

Lemma startsWith_app p s : startsWith p (p ++ s) = true.
Proof. induction p as [|c p IH]; simpl; [done|]. by rewrite bool_decide_eq_true_2. Qed.

Lemma startsWith_inv p s : startsWith p s = true → s = p ++ drop (length p) s.
Proof.
  revert s; induction p as [|c p IH]; intros [|d s]; simpl; try done.
  intros [Hc Hp]%andb_prop. apply bool_decide_eq_true_1 in Hc as ->.
  f_equal. by apply IH.
Qed.

Lemma slice_app_mid (a b c : jsstring) :
  slice (length a) (length a + length b) (a ++ b ++ c) = b.
Proof.
  unfold slice. rewrite drop_app_length.
  replace (length a + length b - length a) with (length b) by lia.
  by rewrite take_app_length.
Qed.

Lemma slice_split (a b c : nat) (s : jsstring) :
  a ≤ b → b ≤ c → slice a b s ++ slice b c s = slice a c s.
Proof.
  intros Hab Hbc. unfold slice.
  replace (drop b s) with (drop (b - a) (drop a s)) by (rewrite drop_drop; f_equal; lia).
  replace (c - a) with ((b - a) + (c - b)) by lia.
  by rewrite take_take_drop.
Qed.

Section matcher_facts.
Context {R : Type}.

Lemma lit_startsWith (p s : jsstring) (k : jsstring → option R) :
  lit p s k = if startsWith p s then k (drop (length p) s) else None.
Proof.
  revert s; induction p as [|c p IH]; intros [|d s]; simpl; try done.
  case_bool_decide; simpl; [apply IH | done].
Qed.

Lemma lit_app (p s : jsstring) (k : jsstring → option R) : lit p (p ++ s) k = k s.
Proof. by rewrite lit_startsWith, startsWith_app, drop_app_length. Qed.

Lemma lit_Some (p s : jsstring) (k : jsstring → option R) r :
  lit p s k = Some r → ∃ s', s = p ++ s' ∧ k s' = Some r.
Proof.
  rewrite lit_startsWith. destruct (startsWith p s) eqn:E; [|done].
  intros H. exists (drop (length p) s). split; [by apply startsWith_inv | done].
Qed.

Lemma alt_Some ps (s : jsstring) (k : jsstring → jsstring → option R) r :
  alt ps s k = Some r → ∃ p s', p ∈ ps ∧ s = p ++ s' ∧ k p s' = Some r.
Proof.
  induction ps as [|p ps IH]; simpl; [done|].
  destruct (lit p s (k p)) as [r'|] eqn:E.
  - intros [= ->]. apply lit_Some in E as (s' & -> & ?).
    exists p, s'. split_and!; [apply list_elem_of_here | done | done].
  - intros (q & s' & ? & ? & ?)%IH. exists q, s'. split_and!; [by apply list_elem_of_further | done | done].
Qed.

Lemma lazy_any_Some (s acc : jsstring) (k : jsstring → jsstring → option R) r :
  lazy_any s acc k = Some r → ∃ c s', s = c ++ s' ∧ k (acc ++ c) s' = Some r.
Proof.
  revert acc; induction s as [|d s IH]; intros acc; simpl.
  - destruct (k acc []) eqn:E; [|done]. intros [= ->].
    exists [], []. by rewrite !app_nil_r.
  - destruct (k acc (d :: s)) eqn:E.
    + intros [= ->]. exists [], (d :: s). by rewrite app_nil_r.
    + intros (c & s' & -> & H)%IH. exists (d :: c), s'. split; [done|].
      by rewrite <- app_assoc in H.
Qed.

(** The lazy star stops at the first split its continuation accepts. *)
Lemma lazy_any_first (c s acc : jsstring) (k : jsstring → jsstring → option R) :
  (∀ c1 c2, c = c1 ++ c2 → c2 ≠ [] → k (acc ++ c1) (c2 ++ s) = None) →
  lazy_any (c ++ s) acc k = lazy_any s (acc ++ c) k.
Proof.
  revert acc; induction c as [|d c IH]; intros acc Hk; simpl.
  - by rewrite app_nil_r.
  - pose proof (Hk [] (d :: c) eq_refl) as H0. rewrite app_nil_r in H0. simpl in H0.
    rewrite H0 by done. rewrite IH; [by rewrite <- app_assoc|].
    intros c1 c2 -> Hc2. rewrite <- app_assoc. apply (Hk (d :: c1) c2); done.
Qed.

End matcher_facts.

(** ** Fuel of the JSON descent *)

Section json_fuel.

Lemma skip_ws_length s : length (skip_ws s) ≤ length s.
Proof.
  induction s as [|c s IH]; simpl; [done|]. destruct (is_json_ws c); simpl; lia.
Qed.

Lemma skip_ws_cons_length s c r : skip_ws s = c :: r → length r < length s.
Proof. intros H. pose proof (skip_ws_length s) as Hl. rewrite H in Hl. simpl in Hl. lia. Qed.

Lemma parse_string_body_length n : ∀ s acc str r,
  length s ≤ n → parse_string_body s acc = Some (str, r) → length r < length s.
Proof.
  induction n as [|n IH]; intros s acc str r Hn.
  - destruct s; [done | simpl in Hn; lia].
  - destruct s as [|c s]; [done|]. simpl in Hn |- *.
    destruct (c =? dquote)%N; [intros [= <- <-]; lia|].
    destruct (c <? 32)%N; [done|].
    destruct (c =? ch "\")%N.
    + destruct s as [|e s]; [done|]. simpl in Hn.
      assert (∀ acc', parse_string_body s acc' = Some (str, r) → length r < S (S (length s)))
        as Hrec by (intros acc' H%IH; lia).
      destruct ((e =? dquote)%N || (e =? ch "\")%N || (e =? ch "/")%N); [apply Hrec|].
      destruct (e =? ch "b")%N; [apply Hrec|].
      destruct (e =? ch "f")%N; [apply Hrec|].
      destruct (e =? ch "n")%N; [apply Hrec|].
      destruct (e =? ch "r")%N; [apply Hrec|].
      destruct (e =? ch "t")%N; [apply Hrec|].
      destruct (e =? ch "u")%N; [|done].
      destruct s as [|h1 [|h2 [|h3 [|h4 s]]]]; try done.
      destruct (hex_digit h1), (hex_digit h2), (hex_digit h3), (hex_digit h4); try done.
      simpl in Hn. intros H%IH; simpl; lia.
    + intros H%IH; lia.
Qed.

Lemma digits_length s ds r :
  digits s = (ds, r) → length r + length ds = length s.
Proof.
  revert ds r; induction s as [|c s IH]; intros ds r; simpl.
  - by intros [= <- <-].
  - destruct (is_digit c); [|by intros [= <- <-]].
    destruct (digits s) as [ds' r'] eqn:E. intros [= <- <-].
    specialize (IH _ _ eq_refl). simpl. lia.
Qed.

Lemma parse_number_length s n r :
  parse_number s = Some (n, r) → length r < length s.
Proof.
  unfold parse_number.
  destruct (match s with
            | [] => (false, s)
            | c :: r0 => if (c =? ch "-")%N then (true, r0) else (false, s)
            end) as [neg s1] eqn:E1.
  assert (length s1 ≤ length s) as H1.
  { destruct s as [|c s]; [by injection E1 as <- <-|].
    destruct (c =? ch "-")%N; injection E1 as <- <-; simpl; lia. }
  destruct (digits s1) as [ip s2] eqn:E2. apply digits_length in E2.
  destruct ip as [|d ip]; [done|]. simpl in E2.
  destruct ((d =? ch "0")%N && negb (bool_decide (ip = []))); [done|].
  destruct (match s2 with
            | [] => Some ([], s2)
            | c :: r0 =>
                if (c =? ch ".")%N
                then let '(fp, s3) := digits r0 in
                     match fp with [] => None | _ :: _ => Some (fp, s3) end
                else Some ([], s2)
            end) as [[fp s3]|] eqn:E3; [|done].
  assert (length s3 ≤ length s2) as H3.
  { destruct s2 as [|c s2]; [by injection E3 as <- <-|].
    destruct (c =? ch ".")%N; [|by injection E3 as <- <-].
    destruct (digits s2) as [fp' s3'] eqn:E. apply digits_length in E.
    destruct fp'; [done|]. injection E3 as <- <-. simpl in *. lia. }
  destruct (match s3 with
            | [] => Some (0%Z, s3)
            | c :: r0 =>
                if (c =? ch "e")%N || (c =? ch "E")%N
                then
                  let '(eneg, r1) :=
                    match r0 with
                    | [] => (false, r0)
                    | c' :: r' =>
                        if (c' =? ch "-")%N then (true, r')
                        else if (c' =? ch "+")%N then (false, r') else (false, r0)
                    end in
                  let '(ep, s4) := digits r1 in
                  match ep with
                  | [] => None
                  | _ :: _ =>
                      let e := Z.of_N (decimal ep) in
                      Some (if eneg then (- e)%Z else e, s4)
                  end
                else Some (0%Z, s3)
            end) as [[e s4]|] eqn:E4; [|done].
  assert (length s4 ≤ length s3) as H4.
  { destruct s3 as [|c s3]; [by injection E4 as <- <-|].
    destruct ((c =? ch "e")%N || (c =? ch "E")%N); [|by injection E4 as <- <-].
    destruct (match s3 with
              | [] => (false, s3)
              | c' :: r' =>
                  if (c' =? ch "-")%N then (true, r')
                  else if (c' =? ch "+")%N then (false, r') else (false, s3)
              end) as [eneg r1] eqn:E5.
    assert (length r1 ≤ length s3) as H5.
    { destruct s3 as [|c' s3]; [by injection E5 as <- <-|].
      destruct (c' =? ch "-")%N; [injection E5 as <- <-; simpl; lia|].
      destruct (c' =? ch "+")%N; injection E5 as <- <-; simpl; lia. }
    destruct (digits r1) as [ep s4'] eqn:E. apply digits_length in E.
    destruct ep; [done|]. injection E4 as <- <-. simpl in *. lia. }
  intros [= <- <-]. lia.
Qed.

End json_fuel.

Section json_fuel_enough.

(** Rewrites with the equations recorded while a layer was taken apart. *)
Ltac replay :=
  repeat match goal with
         | H : ?t = _ |- context [?t] => rewrite H
         end.

(** A successful descent consumes input and succeeds again, with the
    same result, on any fuel of at least twice what it consumed. *)
Lemma parse_fuel f :
  (∀ s v r, parse_value f s = Some (v, r) →
     length r < length s
     ∧ ∀ g, 2 * (length s - length r) ≤ g → parse_value g s = Some (v, r))
  ∧ (∀ s acc v r, parse_elements f s acc = Some (v, r) →
     length r < length s
     ∧ ∀ g, 2 * (length s - length r) ≤ g → parse_elements g s acc = Some (v, r))
  ∧ (∀ s acc v r, parse_members f s acc = Some (v, r) →
     length r < length s
     ∧ ∀ g, 2 * (length s - length r) ≤ g → parse_members g s acc = Some (v, r)).
Proof.
  induction f as [|f (Hv & He & Hm)]; [by split_and!|]. split_and!.
  - intros s v r. cbn [parse_value]. unfold value_step.
    destruct (skip_ws s) as [|c r0] eqn:Es; [done|].
    pose proof (skip_ws_cons_length _ _ _ Es) as Hs.
    destruct (c =? ch "{")%N eqn:E1.
    { destruct (skip_ws r0) as [|c' r'] eqn:Er; [done|].
      pose proof (skip_ws_cons_length _ _ _ Er) as Hr.
      destruct (c' =? ch "}")%N eqn:E2.
      - intros [= <- <-]. split; [lia|]. intros [|g] Hg; [lia|].
        cbn [parse_value]. unfold value_step. by replay.
      - intros [Hl Hg']%Hm. simpl in Hl. split; [lia|]. intros [|g] Hg; [lia|].
        cbn [parse_value]. unfold value_step. replay. apply Hg'. simpl. lia. }
    destruct (c =? ch "[")%N eqn:E2.
    { destruct (skip_ws r0) as [|c' r'] eqn:Er; [done|].
      pose proof (skip_ws_cons_length _ _ _ Er) as Hr.
      destruct (c' =? ch "]")%N eqn:E3.
      - intros [= <- <-]. split; [lia|]. intros [|g] Hg; [lia|].
        cbn [parse_value]. unfold value_step. by replay.
      - intros [Hl Hg']%He. simpl in Hl. split; [lia|]. intros [|g] Hg; [lia|].
        cbn [parse_value]. unfold value_step. replay. apply Hg'. simpl. lia. }
    destruct (c =? dquote)%N eqn:E3.
    { destruct (parse_string_body r0 []) as [[str r']|] eqn:Ep; [|done].
      pose proof (parse_string_body_length _ _ _ _ _ (le_n _) Ep) as Hr.
      intros [= <- <-]. split; [lia|]. intros [|g] Hg; [lia|].
      cbn [parse_value]. unfold value_step. by replay. }
    destruct (startsWith (js "true") (c :: r0)) eqn:E4.
    { intros [= <- <-]. rewrite length_drop. simpl. split; [lia|].
      intros [|g] Hg; [lia|]. cbn [parse_value]. unfold value_step. by replay. }
    destruct (startsWith (js "false") (c :: r0)) eqn:E5.
    { intros [= <- <-]. rewrite length_drop. simpl. split; [lia|].
      intros [|g] Hg; [lia|]. cbn [parse_value]. unfold value_step. by replay. }
    destruct (startsWith (js "null") (c :: r0)) eqn:E6.
    { intros [= <- <-]. rewrite length_drop. simpl. split; [lia|].
      intros [|g] Hg; [lia|]. cbn [parse_value]. unfold value_step. by replay. }
    destruct (parse_number (c :: r0)) as [[n r']|] eqn:Ep; [|done].
    pose proof (parse_number_length _ _ _ Ep) as Hr. simpl in Hr.
    intros [= <- <-]. split; [lia|]. intros [|g] Hg; [lia|].
    cbn [parse_value]. unfold value_step. by replay.
  - intros s acc v r. cbn [parse_elements]. unfold elements_step.
    destruct (parse_value f s) as [[v1 r1]|] eqn:Ev; [|done].
    apply Hv in Ev as [Hl1 Hg1].
    destruct (skip_ws r1) as [|c r'] eqn:Er; [done|].
    pose proof (skip_ws_cons_length _ _ _ Er) as Hr.
    destruct (c =? ch ",")%N eqn:E1.
    { intros [Hl Hg']%He. split; [lia|]. intros [|g] Hg; [lia|].
      cbn [parse_elements]. unfold elements_step.
      rewrite (Hg1 g) by lia. replay. apply Hg'. lia. }
    destruct (c =? ch "]")%N eqn:E2; [|done].
    intros [= <- <-]. split; [lia|]. intros [|g] Hg; [lia|].
    cbn [parse_elements]. unfold elements_step.
    rewrite (Hg1 g) by lia. by replay.
  - intros s acc v r. cbn [parse_members]. unfold members_step.
    destruct (skip_ws s) as [|q r0] eqn:Es; [done|].
    pose proof (skip_ws_cons_length _ _ _ Es) as Hs.
    destruct (q =? dquote)%N eqn:E1; [|done].
    destruct (parse_string_body r0 []) as [[key r1]|] eqn:Ep; [|done].
    pose proof (parse_string_body_length _ _ _ _ _ (le_n _) Ep) as Hr1.
    destruct (skip_ws r1) as [|c r2] eqn:Er1; [done|].
    pose proof (skip_ws_cons_length _ _ _ Er1) as Hr2.
    destruct (c =? ch ":")%N eqn:E2; [|done].
    destruct (parse_value f r2) as [[v1 r3]|] eqn:Ev; [|done].
    apply Hv in Ev as [Hl3 Hg3].
    destruct (skip_ws r3) as [|c' r4] eqn:Er3; [done|].
    pose proof (skip_ws_cons_length _ _ _ Er3) as Hr4.
    destruct (c' =? ch ",")%N eqn:E3.
    { intros [Hl Hg']%Hm. split; [lia|]. intros [|g] Hg; [lia|].
      cbn [parse_members]. unfold members_step. replay.
      rewrite (Hg3 g) by lia. replay. apply Hg'. lia. }
    destruct (c' =? ch "}")%N eqn:E4; [|done].
    intros [= <- <-]. split; [lia|]. intros [|g] Hg; [lia|].
    cbn [parse_members]. unfold members_step. replay.
    rewrite (Hg3 g) by lia. by replay.
Qed.

(** The fuel [JSON_parse] gives is enough: more never changes the result. *)
Theorem parse_value_fuel_enough (text : jsstring) (fuel : nat) :
  2 * length text + 2 ≤ fuel →
  parse_value fuel text = parse_value (2 * length text + 2) text.
Proof.
  intros Hf. destruct (parse_value fuel text) as [[v r]|] eqn:E.
  - apply parse_fuel in E as [Hl Hg]. symmetry. apply Hg. lia.
  - destruct (parse_value (2 * length text + 2) text) as [[v r]|] eqn:E'; [|done].
    apply parse_fuel in E' as [Hl Hg]. rewrite Hg in E by lia. done.
Qed.

End json_fuel_enough.

(** ** The pattern of the assistant bubble *)

Section parser_facts.
Import IAMessage Spec.

Lemma regex_at_Some s p1 p2 rest :
  regex_at s = Some (p1, p2, rest) →
  p1 ∈ kinds
  ∧ s = js "<" ++ p1 ++ js ">" ++ p2 ++ js "</" ++ p1 ++ js ">" ++ rest.
Proof.
  unfold regex_at. intros H.
  apply lit_Some in H as (s1 & -> & H).
  apply alt_Some in H as (q & s2 & Hq & -> & H).
  apply lit_Some in H as (s3 & -> & H).
  apply lazy_any_Some in H as (c & s4 & -> & H).
  apply lit_Some in H as (s5 & -> & H).
  apply lit_Some in H as (s6 & -> & H).
  apply lit_Some in H as (s7 & -> & H).
  by injection H as <- <- <-.
Qed.

(** A match is never empty and leaves a shorter rest. *)
Lemma regex_at_length s p1 p2 rest :
  regex_at s = Some (p1, p2, rest) → length rest < length s.
Proof.
  intros [_ ->]%regex_at_Some. rewrite !length_app. simpl. lia.
Qed.

Lemma well_placed_weaken text lo lo' ms :
  lo' ≤ lo → well_placed text lo ms → well_placed text lo' ms.
Proof. destruct ms as [|m ms]; simpl; [done|]. intros ? (? & ?). split; [lia | done]. Qed.

Lemma matches_from_placed text s : ∀ pos li,
  drop pos text = s → well_placed text (pos `max` li) (matches_from pos li s).
Proof.
  induction s as [|d s IH]; intros pos li Hs; simpl; [done|].
  assert (drop (S pos) text = s) as Hs'.
  { replace (S pos) with (pos + 1) by lia. by rewrite <- drop_drop, Hs. }
  assert (length text = pos + S (length s)) as Hlen.
  { apply (f_equal length) in Hs. rewrite length_drop in Hs. simpl in Hs. lia. }
  case_bool_decide as Hlt.
  - replace (pos `max` li) with (S pos `max` li) by lia. by apply IH.
  - destruct (regex_at (d :: s)) as [[[p1 p2] rest]|] eqn:E.
    + pose proof (regex_at_length _ _ _ _ E) as Hr.
      pose proof (regex_at_Some _ _ _ _ E) as [Hk _].
      simpl in Hr. simpl. rewrite length_take. simpl.
      split_and!; try lia; [done|].
      replace (S (length s) - length rest `min` S (length s))
        with (S (length s) - length rest) by lia.
      specialize (IH (S pos) (pos + (S (length s) - length rest)) Hs').
      eapply well_placed_weaken; [|exact IH]. lia.
    + eapply well_placed_weaken; [|apply (IH (S pos) li Hs')]. lia.
Qed.

Lemma regex_matches_placed text : well_placed text 0 (regex_matches text).
Proof. apply (matches_from_placed text text 0 0). apply drop_0. Qed.

(** ** Spans of the entries *)

Lemma contiguous_snoc a sps b c :
  contiguous a sps b → b < c → contiguous a (sps ++ [(b, c)]) c.
Proof.
  revert a; induction sps as [|sp sps IH]; intros a; simpl.
  - intros -> ?. done.
  - intros (? & ? & ?) ?. split_and!; [done..|]. by apply IH.
Qed.

Lemma contiguous_le a sps b : contiguous a sps b → a ≤ b.
Proof.
  revert a; induction sps as [|sp sps IH]; intros a; simpl; [lia|].
  intros (<- & ? & ?%IH). lia.
Qed.

Lemma span_text_contiguous text a sps b :
  contiguous a sps b → span_text text sps = slice a b text.
Proof.
  revert a; induction sps as [|sp sps IH]; intros a; simpl.
  - intros ->. unfold span_text, slice. simpl. by rewrite Nat.sub_diag.
  - intros (<- & Hlt & Hc).
    change (span_text text (sp :: sps))
      with (slice sp.1 sp.2 text ++ span_text text sps).
    rewrite (IH _ Hc). apply contiguous_le in Hc. apply slice_split; lia.
Qed.

Lemma slice_whole (text : jsstring) : slice 0 (length text) text = text.
Proof. unfold slice. rewrite drop_0, Nat.sub_0_r. by apply take_ge. Qed.

(** One call of the callback keeps the entries end to end. *)
Lemma replacer_contiguous text st m st' :
  replacer text st m = (st', None) →
  lastIndex st ≤ m_offset m → 0 < length (m_match m) →
  contiguous 0 (entries st).*1 (lastIndex st) →
  contiguous 0 (entries st').*1 (lastIndex st')
  ∧ lastIndex st' = m_offset m + length (m_match m).
Proof.
  unfold replacer. intros H Hle Hlen Hc.
  destruct (handler_for (m_p1 m) (m_p2 m)) as [b|e]; [|done].
  injection H as <-. simpl. split; [|done].
  rewrite fmap_app. simpl. apply contiguous_snoc; [|lia].
  case_bool_decide; simpl.
  - rewrite fmap_app. simpl. by apply contiguous_snoc.
  - by replace (m_offset m) with (lastIndex st) by lia.
Qed.

Lemma run_replacer_contiguous text ms : ∀ st st',
  run_replacer text st ms = (st', None) →
  well_placed text (lastIndex st) ms →
  lastIndex st ≤ length text →
  contiguous 0 (entries st).*1 (lastIndex st) →
  contiguous 0 (entries st').*1 (lastIndex st') ∧ lastIndex st' ≤ length text.
Proof.
  induction ms as [|m ms IH]; intros st st'; simpl.
  - by intros [= <-].
  - destruct (replacer text st m) as [st1 [e|]] eqn:E; [done|].
    intros H (? & ? & ? & ? & Hw) ? Hc.
    destruct (replacer_contiguous _ _ _ _ E) as [Hc1 Hl1]; [done..|].
    apply (IH st1 st' H); [by rewrite Hl1 | by rewrite Hl1 | done].
Qed.

End parser_facts.

(** ** Round trip of the source spans *)

Section roundtrip.
Import IAMessage Spec.

Lemma entries_contiguous (text : jsstring) (es : list (span * block)) :
  processMessage_spans text [] = (es, None) → contiguous 0 es.*1 (length text).
Proof.
  intros H. unfold processMessage_spans in H.
  destruct (run_replacer text (PM 0 []) (regex_matches text))
    as [st [e|]] eqn:E; [done|].
  destruct (run_replacer_contiguous text _ _ _ E) as [Hc Hle];
    [apply regex_matches_placed | simpl; lia | done |].
  case_bool_decide; injection H as <-.
  - simpl. rewrite fmap_app. simpl. by apply contiguous_snoc.
  - by replace (length text) with (lastIndex st) by lia.
Qed.

(** C1 (as amended): on every message text on which [processMessage]
    returns without an exception, the untrimmed source spans of the
    emitted blocks, put end to end in emission order, give back the
    text; the spans follow one another from index 0 to the end of the
    text without a hole, so every code unit lies in one span and the
    blocks come in source order. *)
Theorem C1_span_roundtrip (text : jsstring) (es : list (span * block)) :
  processMessage_spans text [] = (es, None) →
  span_text text es.*1 = text
  ∧ contiguous 0 es.*1 (length text)
  ∧ processMessage text = (es.*2, None).
Proof.
  intros H. pose proof (entries_contiguous text es H) as Hc.
  split_and!; [|done|].
  - rewrite (span_text_contiguous _ _ _ _ Hc). apply slice_whole.
  - unfold processMessage. by rewrite H.
Qed.

Lemma C1_span_roundtrip_witness :
  let text := js "See <citations>[1] Spec</citations> results: <table>x</table>" in
  let es := (processMessage_spans text []).1 in
  processMessage_spans text [] = (es, None)
  ∧ span_text text es.*1 = text
  ∧ contiguous 0 es.*1 (length text)
  ∧ processMessage text = (es.*2, None).
Proof.
  intros text es.
  assert (processMessage_spans text [] = (es, None)) as H by (vm_compute; reflexivity).
  split; [exact H | exact (C1_span_roundtrip text es H)].
Defined.

(** C1 as worded fails on a message whose chart payload is not JSON:
    the handler throws, no block is emitted and the spans give back
    nothing of the text. *)
Lemma C1_counterexample :
  let text := js "<chart>x</chart>" in
  processMessage text = ([], Some SyntaxError)
  ∧ span_text text (processMessage_spans text []).1.*1 ≠ text.
Proof. vm_compute. split; [reflexivity | discriminate]. Qed.

End roundtrip.

(** ** Handlers and entries *)

Section entries_facts.
Import IAMessage Spec.

Lemma kinds_cases p1 :
  p1 ∈ kinds → p1 ∈ generic_kinds ∨ p1 = js "code" ∨ p1 ∈ structured_kinds.
Proof.
  unfold kinds, generic_kinds, structured_kinds.
  rewrite !elem_of_cons, !elem_of_nil. naive_solver.
Qed.

Lemma text_not_kind : js "text" ∉ kinds.
Proof. unfold kinds. rewrite !not_elem_of_cons. split_and!; try done. apply not_elem_of_nil. Qed.

Lemma handler_for_generic k p2 :
  k ∈ generic_kinds → handler_for k p2 = Normal (Block k (cleanContent p2)).
Proof.
  unfold generic_kinds. rewrite !elem_of_cons, elem_of_nil.
  intros [->|[->|[->|[->|[]]]]]; reflexivity.
Qed.

Lemma JSON_parse_throw s e : JSON_parse s = Throw e → e = SyntaxError.
Proof.
  unfold JSON_parse. destruct (parse_value _ s) as [[v r]|]; [|congruence].
  destruct (skip_ws r); congruence.
Qed.

Lemma handler_for_structured p1 p2 e :
  p1 ∈ structured_kinds → JSON_parse p2 = Throw e → handler_for p1 p2 = Throw e.
Proof.
  unfold structured_kinds. rewrite !elem_of_cons, elem_of_nil.
  intros [->|[->|[->|[]]]] H.
  - change (handle_chart p2 = Throw e). unfold handle_chart. by rewrite H.
  - change (handle_card p2 = Throw e). unfold handle_card. by rewrite H.
  - change (handle_map p2 = Throw e). unfold handle_map. by rewrite H.
Qed.

(** A handler gives a block of the kind it was called for. *)
Lemma handler_for_type p1 p2 b :
  p1 ∈ kinds → handler_for p1 p2 = Normal b → block_type b = p1.
Proof.
  intros [Hg|[->|Hs]]%kinds_cases.
  - rewrite (handler_for_generic _ _ Hg). by intros [= <-].
  - change (handle_code p2 = Normal b → block_type b = js "code").
    unfold handle_code. by intros [= <-].
  - revert Hs. unfold structured_kinds. rewrite !elem_of_cons, elem_of_nil.
    intros [->|[->|[->|[]]]].
    + change (handle_chart p2 = Normal b → block_type b = js "chart").
      unfold handle_chart. destruct (JSON_parse p2) as [v|]; simpl; [|done].
      destruct (get v (js "data")); simpl; [|done].
      destruct (get v (js "type")); simpl; [|done].
      destruct (get v (js "options")); simpl; [|done]. by intros [= <-].
    + change (handle_card p2 = Normal b → block_type b = js "card").
      unfold handle_card. destruct (JSON_parse p2) as [v|]; simpl; [|done].
      by intros [= <-].
    + change (handle_map p2 = Normal b → block_type b = js "map").
      unfold handle_map. destruct (JSON_parse p2) as [v|]; simpl; [|done].
      destruct (get v (js "xy")); simpl; [|done].
      destruct (get v (js "ubication")); simpl; [|done]. by intros [= <-].
Qed.

(** The callback, by the outcome of the handler. *)
Lemma replacer_spec text st m :
  match handler_for (m_p1 m) (m_p2 m) with
  | Normal b =>
      ∃ st', replacer text st m = (st', None)
        ∧ lastIndex st' = m_offset m + length (m_match m)
        ∧ entries st' =
            entries st ++ gap_entries text (lastIndex st) (m_offset m)
              ++ [(match_span m, b)]
  | Throw e =>
      ∃ st', replacer text st m = (st', Some e)
        ∧ lastIndex st' = lastIndex st
        ∧ entries st' =
            entries st ++ gap_entries text (lastIndex st) (m_offset m)
  end.
Proof.
  unfold replacer, gap_entries.
  destruct (handler_for (m_p1 m) (m_p2 m)) as [b|e]; eexists; split; try reflexivity;
    case_bool_decide; simpl; rewrite <- ?app_assoc, ?app_nil_r; done.
Qed.

Lemma run_replacer_app text ms1 ms2 st :
  run_replacer text st (ms1 ++ ms2) =
    match run_replacer text st ms1 with
    | (st', None) => run_replacer text st' ms2
    | (st', Some e) => (st', Some e)
    end.
Proof.
  revert st; induction ms1 as [|m ms1 IH]; intros st; simpl; [done|].
  destruct (replacer text st m) as [st1 [e|]]; [done | apply IH].
Qed.

Lemma well_placed_kinds text lo ms m :
  well_placed text lo ms → m ∈ ms → m_p1 m ∈ kinds.
Proof.
  revert lo; induction ms as [|m' ms IH]; intros lo; simpl.
  - by intros _ ?%elem_of_nil.
  - intros (_ & _ & _ & Hk & Hw) [->|Hin]%elem_of_cons; [done | by eapply IH].
Qed.

(** Every entry the run adds is the text of an untagged span or the
    block a handler returned for a match. *)
Lemma run_replacer_new text hi ms : ∀ st st' err,
  run_replacer text st ms = (st', err) →
  ∃ new, entries st' = entries st ++ new
    ∧ Forall (λ e : span * block,
        (e = text_entry text e.1 ∧ e.1 ∈ gaps_from (lastIndex st) ms hi)
        ∨ (∃ m, m ∈ ms ∧ handler_for (m_p1 m) (m_p2 m) = Normal e.2)) new.
Proof.
  induction ms as [|m ms IH]; intros st st' err; simpl.
  - intros [= <- <-]. exists []. by rewrite app_nil_r.
  - pose proof (replacer_spec text st m) as Hm.
    destruct (handler_for (m_p1 m) (m_p2 m)) as [b|e] eqn:Eh;
      destruct Hm as (st1 & -> & Hl & He).
    + intros (new & Hn & Hall)%IH. rewrite Hl in Hall.
      exists (gap_entries text (lastIndex st) (m_offset m) ++ [(match_span m, b)] ++ new).
      split; [rewrite Hn, He, <- !app_assoc; done|].
      rewrite !Forall_app. split_and!.
      * unfold gap_entries. case_bool_decide; constructor; [|constructor].
        left. split; [done|]. simpl. apply list_elem_of_here.
      * constructor; [|constructor]. right. exists m. split; [apply list_elem_of_here | done].
      * eapply Forall_impl; [exact Hall|]. intros e' [[? ?]|(m' & ? & ?)].
        -- left. split; [done|]. by apply list_elem_of_further.
        -- right. exists m'. split; [by apply list_elem_of_further | done].
    + intros [= <- <-]. exists (gap_entries text (lastIndex st) (m_offset m)).
      split; [done|]. unfold gap_entries. case_bool_decide; constructor; [|constructor].
      left. split; [done|]. simpl. apply list_elem_of_here.
Qed.

(** A run without exception pushes the text of every non-empty
    untagged span it passes, and stops before the last one. *)
Lemma run_replacer_gaps text hi ms : ∀ st st',
  run_replacer text st ms = (st', None) →
  (lastIndex st', hi) ∈ gaps_from (lastIndex st) ms hi
  ∧ (∀ sp, sp ∈ gaps_from (lastIndex st) ms hi →
       sp = (lastIndex st', hi) ∨ (sp.1 < sp.2 → text_entry text sp ∈ entries st'))
  ∧ (∀ e, e ∈ entries st → e ∈ entries st').
Proof.
  induction ms as [|m ms IH]; intros st st'; simpl.
  - intros [= <-]. split_and!; [apply list_elem_of_here | | done].
    intros sp ->%list_elem_of_singleton. by left.
  - pose proof (replacer_spec text st m) as Hm.
    destruct (handler_for (m_p1 m) (m_p2 m)) as [b|e] eqn:Eh;
      destruct Hm as (st1 & -> & Hl & He); [|done].
    intros (Hlast & Hgaps & Hmono)%IH. rewrite Hl in Hlast, Hgaps.
    split_and!.
    + by apply list_elem_of_further.
    + intros sp [->|Hin]%elem_of_cons; [|by apply Hgaps].
      right. simpl. intros Hlt. apply Hmono. rewrite He.
      unfold gap_entries. rewrite bool_decide_eq_true_2 by done.
      rewrite !elem_of_app. right. left. apply list_elem_of_here.
    + intros e' Hin. apply Hmono. rewrite He, elem_of_app. by left.
Qed.

Lemma contiguous_nonempty a sps b sp :
  contiguous a sps b → sp ∈ sps → sp.1 < sp.2.
Proof.
  revert a; induction sps as [|sp' sps IH]; intros a; simpl.
  - by intros _ ?%elem_of_nil.
  - intros (_ & ? & Hc) [->|Hin]%elem_of_cons; [done | by eapply IH].
Qed.

Lemma slice_from_to_end a (text : jsstring) :
  slice_from a text = slice a (length text) text.
Proof. unfold slice_from, slice. rewrite take_ge; [done|]. by rewrite length_drop. Qed.

End entries_facts.

(** ** Untagged spans *)

Section untagged.
Import IAMessage Spec.

(** Where the entries of a message come from. *)
Lemma processMessage_spans_entries text e :
  e ∈ (processMessage_spans text []).1 →
  (e = text_entry text e.1 ∧ e.1 ∈ untagged_spans text)
  ∨ (∃ m, m ∈ regex_matches text ∧ handler_for (m_p1 m) (m_p2 m) = Normal e.2).
Proof.
  unfold processMessage_spans, untagged_spans.
  destruct (run_replacer text (PM 0 []) (regex_matches text)) as [st err] eqn:E.
  destruct (run_replacer_new text (length text) _ _ _ _ E) as (new & Hn & Hall).
  simpl in Hn, Hall. rewrite Forall_forall in Hall.
  destruct err as [err|]; simpl.
  - rewrite Hn. apply Hall.
  - destruct (run_replacer_gaps text (length text) _ _ _ E) as (Hlast & _ & _).
    case_bool_decide; simpl; rewrite Hn; [|apply Hall].
    intros [Hin| ->%list_elem_of_singleton]%elem_of_app; [by apply Hall|].
    left. simpl. split; [|done].
    unfold text_entry. simpl. by rewrite slice_from_to_end.
Qed.

(** C5 (as amended): on a message text on which [processMessage]
    returns without an exception, an untagged span (before the first
    match, between two matches, after the last) becomes its own [text]
    entry if and only if it is non-empty; the test is made before any
    trimming, so a span of white space alone yields a [text] entry too
    (with trimmed, hence empty, source). No other [text] entry exists. *)
Theorem C5_untagged_span_blocks (text : jsstring) (es : list (span * block)) :
  processMessage_spans text [] = (es, None) →
  (∀ sp, sp ∈ untagged_spans text → (sp.1 < sp.2 ↔ text_entry text sp ∈ es))
  ∧ (∀ sp b, (sp, b) ∈ es → block_type b = js "text" →
       sp ∈ untagged_spans text ∧ (sp, b) = text_entry text sp).
Proof.
  intros H. split.
  - intros sp Hsp. split.
    + intros Hlt. revert H Hsp. unfold processMessage_spans, untagged_spans.
      destruct (run_replacer text (PM 0 []) (regex_matches text))
        as [st [err|]] eqn:E; [done|].
      destruct (run_replacer_gaps text (length text) _ _ _ E) as (_ & Hgaps & _).
      simpl in Hgaps. intros H Hsp. destruct (Hgaps sp Hsp) as [-> | Hin].
      * simpl in Hlt. rewrite bool_decide_eq_true_2 in H by done.
        injection H as <-. simpl. rewrite elem_of_app. right.
        apply list_elem_of_singleton. unfold text_entry. simpl.
        by rewrite slice_from_to_end.
      * specialize (Hin Hlt). case_bool_decide; injection H as <-; [|done].
        simpl. rewrite elem_of_app. by left.
    + intros Hin. pose proof (entries_contiguous text es H) as Hc.
      eapply contiguous_nonempty; [exact Hc|].
      apply list_elem_of_fmap. exists (text_entry text sp). by split.
  - intros sp b Hin Hty.
    assert ((sp, b) ∈ (processMessage_spans text []).1) as Hin' by (by rewrite H).
    destruct (processMessage_spans_entries _ _ Hin') as [[He Hg]|(m & Hm & Hh)]; [done|].
    simpl in Hh. apply handler_for_type in Hh.
    + rewrite Hty in Hh. destruct text_not_kind. rewrite Hh.
      eapply well_placed_kinds; [apply regex_matches_placed | done].
    + eapply well_placed_kinds; [apply regex_matches_placed | done].
Qed.

End untagged.

Section untagged_examples.
Import IAMessage Spec.

Lemma C5_untagged_span_blocks_witness :
  let text := js "<doc>a</doc> <doc>b</doc>" in
  let es := (processMessage_spans text []).1 in
  processMessage_spans text [] = (es, None)
  ∧ (∀ sp, sp ∈ untagged_spans text → (sp.1 < sp.2 ↔ text_entry text sp ∈ es))
  ∧ (∀ sp b, (sp, b) ∈ es → block_type b = js "text" →
       sp ∈ untagged_spans text ∧ (sp, b) = text_entry text sp).
Proof.
  intros text es.
  assert (processMessage_spans text [] = (es, None)) as H by (vm_compute; reflexivity).
  split; [exact H | exact (C5_untagged_span_blocks text es H)].
Defined.

(** C5 as worded fails between two tagged regions separated by one
    space: the span is empty after trimming, and yet it has its own
    [text] entry. *)
Lemma C5_counterexample :
  let text := js "<doc>a</doc> <doc>b</doc>" in
  let es := (processMessage_spans text []).1 in
  ¬ (∀ sp, sp ∈ untagged_spans text →
       (text_entry text sp ∈ es ↔ trim (slice sp.1 sp.2 text) ≠ [])).
Proof.
  intros text es Hclaim.
  assert ((12, 13) ∈ untagged_spans text) as Hsp.
  { vm_compute. do 1 apply list_elem_of_further. apply list_elem_of_here. }
  apply (Hclaim _ Hsp); [|by vm_compute].
  vm_compute. do 1 apply list_elem_of_further. apply list_elem_of_here.
Qed.

End untagged_examples.

(** ** Tags outside and inside the pattern *)

Section fallback.
Import IAMessage Spec.

Lemma startsWith_app_split (p q s : jsstring) :
  startsWith (p ++ q) s = startsWith p s && startsWith q (drop (length p) s).
Proof.
  revert s; induction p as [|c p IH]; intros [|d s]; simpl; try done.
  by rewrite IH, andb_assoc.
Qed.

Lemma lit3_None {R} (p q r s : jsstring) (k : jsstring → option R) :
  startsWith (p ++ q ++ r) s = false →
  lit p s (λ s5, lit q s5 (λ s6, lit r s6 k)) = None.
Proof.
  rewrite !startsWith_app_split, !lit_startsWith.
  destruct (startsWith p s); simpl; [|done].
  rewrite ?lit_startsWith. destruct (startsWith q _); simpl; [|done].
  rewrite ?lit_startsWith. rewrite drop_drop. by intros ->.
Qed.

Lemma lazy_any_now {R} (s acc : jsstring) (k : jsstring → jsstring → option R) r :
  k acc s = Some r → lazy_any s acc k = Some r.
Proof. intros H. destruct s; simpl; by rewrite H. Qed.

Lemma alt_pick {R} ps1 p ps2 (s : jsstring) (k : jsstring → jsstring → option R) r :
  Forall (λ q, startsWith q s = false) ps1 →
  lit p s (k p) = Some r → alt (ps1 ++ p :: ps2) s k = Some r.
Proof.
  intros Hall Hp. induction Hall as [|q ps1 Hq _ IH]; simpl.
  - by rewrite Hp.
  - by rewrite lit_startsWith, Hq.
Qed.

(** A text that starts with [t] before a [<] it does not contain has
    all of [t] in front of that [<]. *)
Lemma startsWith_before_lt (t x y : jsstring) :
  60%N ∉ t → startsWith t (x ++ 60%N :: y) = true → ∃ w, x = t ++ w.
Proof.
  revert x; induction t as [|a t IH]; intros x Hnot; simpl; [by eexists|].
  apply not_elem_of_cons in Hnot as [Hne Hnot].
  destruct x as [|b x]; simpl.
  - intros [Ha _]%andb_prop. by apply bool_decide_eq_true_1 in Ha.
  - intros [Ha Ht]%andb_prop. apply bool_decide_eq_true_1 in Ha as ->.
    destruct (IH x Hnot Ht) as [w ->]. by exists w.
Qed.

(** The closing tag of a kind does not overlap itself. *)
Lemma closing_tag_first k (c1 c2 post : jsstring) :
  k ∈ kinds → c2 ≠ [] →
  ¬ occurs (js "</" ++ k ++ js ">") (c1 ++ c2) →
  startsWith (js "</" ++ k ++ js ">")
    (c2 ++ js "</" ++ k ++ js ">" ++ post) = false.
Proof.
  intros Hk Hc2 Hno. destruct (startsWith _ _) eqn:E; [|done].
  destruct Hno. destruct c2 as [|d c2]; [done|].
  assert (∃ t, js "</" ++ k ++ js ">" = 60%N :: t ∧ 60%N ∉ t
               ∧ ∀ z, js "</" ++ k ++ js ">" ++ z = 60%N :: t ++ z) as (t & Ht & Hnot & Hz).
  { unfold kinds in Hk. rewrite !elem_of_cons, elem_of_nil in Hk.
    destruct Hk as [->|[->|[->|[->|[->|[->|[->|[->|[]]]]]]]]];
      (eexists (js "/" ++ _ ++ js ">"); split_and!;
         [reflexivity | by_decision | reflexivity]). }
  rewrite Hz, Ht in E. simpl in E.
  apply andb_prop in E as [Hd E]. apply bool_decide_eq_true_1 in Hd as <-.
  apply startsWith_before_lt in E as [w ->]; [|done].
  exists c1, w. rewrite Ht. by simpl.
Qed.

(** The pattern matches a whole tagged region whose content does not
    hold the closing tag, and captures that content. *)
Lemma regex_at_region k (c post : jsstring) :
  k ∈ kinds → ¬ occurs (js "</" ++ k ++ js ">") c →
  regex_at (js "<" ++ k ++ js ">" ++ c ++ js "</" ++ k ++ js ">" ++ post)
  = Some (k, c, post).
Proof.
  intros Hk Hno. unfold regex_at. rewrite lit_app.
  assert (∃ ps1 ps2, kinds = ps1 ++ k :: ps2
    ∧ ∀ z, Forall (λ q, startsWith q (k ++ js ">" ++ z) = false) ps1)
    as (ps1 & ps2 & -> & Hps).
  { unfold kinds in Hk |- *. rewrite !elem_of_cons, elem_of_nil in Hk.
    destruct Hk as [->|[->|[->|[->|[->|[->|[->|[->|[]]]]]]]]].
    - eexists [], _. split; [reflexivity|]. intros z. constructor.
    - eexists [_], _. split; [reflexivity|]. intros z. repeat constructor.
    - eexists [_; _], _. split; [reflexivity|]. intros z. repeat constructor.
    - eexists [_; _; _], _. split; [reflexivity|]. intros z. repeat constructor.
    - eexists [_; _; _; _], _. split; [reflexivity|]. intros z. repeat constructor.
    - eexists [_; _; _; _; _], _. split; [reflexivity|]. intros z. repeat constructor.
    - eexists [_; _; _; _; _; _], _. split; [reflexivity|]. intros z. repeat constructor.
    - eexists [_; _; _; _; _; _; _], _. split; [reflexivity|]. intros z. repeat constructor. }
  apply alt_pick; [apply Hps|].
  rewrite !lit_app. rewrite lazy_any_first.
  - apply lazy_any_now. by rewrite !lit_app.
  - intros c1 c2 -> Hc2. apply lit3_None.
    eapply closing_tag_first; [set_solver | done | done].
Qed.

End fallback.

Section fallback_theorem.
Import IAMessage Spec.

Lemma occurs_contains (p s : jsstring) : occurs p s → contains p s = true.
Proof.
  assert (∀ s', contains p s' =
            startsWith p s' || match s' with [] => false | _ :: r => contains p r end)
    as Hunfold by (by intros []).
  intros (a & b & ->). induction a as [|d a IH].
  - simpl app. by rewrite Hunfold, startsWith_app.
  - change ((d :: a) ++ p ++ b) with (d :: (a ++ p ++ b)).
    rewrite Hunfold. cbv beta match. rewrite IH. apply orb_true_r.
Qed.

Lemma regex_at_head d s : d ≠ 60%N → regex_at (d :: s) = None.
Proof.
  intros Hd. unfold regex_at. change (js "<") with [60%N]. simpl.
  by rewrite bool_decide_eq_false_2 by congruence.
Qed.

(** No match starts in a stretch without [<]. *)
Lemma matches_from_skip pre s : ∀ pos li,
  60%N ∉ pre →
  matches_from pos li (pre ++ s) = matches_from (pos + length pre) li s.
Proof.
  induction pre as [|d pre IH]; intros pos li Hnot; simpl.
  - by rewrite Nat.add_0_r.
  - apply not_elem_of_cons in Hnot as [Hd Hnot].
    rewrite regex_at_head by done.
    replace (pos + S (length pre)) with (S pos + length pre) by lia.
    case_bool_decide; by apply IH.
Qed.

Lemma matches_from_hit s p1 p2 rest pos li :
  regex_at s = Some (p1, p2, rest) → ¬ pos < li →
  ∃ mt ms, matches_from pos li s = RMatch mt p1 p2 pos :: ms.
Proof.
  intros H Hlt. pose proof (regex_at_length _ _ _ _ H) as Hlen.
  destruct s as [|d s]; [simpl in Hlen; lia|].
  simpl. rewrite bool_decide_eq_false_2 by done.
  change (regex_at (d :: s)) with (regex_at (d :: s)). rewrite H.
  by eexists _, _.
Qed.

Lemma run_replacer_kept text ms st st' err e :
  run_replacer text st ms = (st', err) → e ∈ entries st → e ∈ entries st'.
Proof.
  intros (new & -> & _)%(run_replacer_new text 0). rewrite elem_of_app. by left.
Qed.

Lemma processMessage_spans_kept text st err e :
  run_replacer text (PM 0 []) (regex_matches text) = (st, err) →
  e ∈ entries st → e ∈ (processMessage_spans text []).1.
Proof.
  intros H Hin. unfold processMessage_spans. rewrite H.
  destruct err; [done|]. case_bool_decide; [|done].
  simpl. rewrite elem_of_app. by left.
Qed.

(** The blocks of a message are of kind [text] or of a kind of the pattern. *)
Lemma processMessage_block_types text b :
  b ∈ (processMessage text).1 → block_type b ∈ js "text" :: kinds.
Proof.
  unfold processMessage.
  destruct (processMessage_spans text []) as [es err] eqn:E. simpl.
  intros (e & -> & Hin)%list_elem_of_fmap.
  assert (e ∈ (processMessage_spans text []).1) as Hin' by (by rewrite E).
  destruct (processMessage_spans_entries _ _ Hin') as [[He _]|(m & Hm & Hh)].
  - rewrite He. apply list_elem_of_here.
  - apply list_elem_of_further.
    assert (m_p1 m ∈ kinds) as Hk
      by (eapply well_placed_kinds; [apply regex_matches_placed | done]).
    by rewrite (handler_for_type _ _ _ Hk Hh).
Qed.

End fallback_theorem.

(** ** Malformed structured payloads *)

Section malformed.
Import IAMessage Spec.

(** The rejection of the payload [x] is one of the grammar, whatever
    the fuel of the descent. *)
Lemma payload_x_any_fuel fuel : parse_value fuel (js "x") = None.
Proof. by destruct fuel. Qed.

(** A payload that is JSON but not an object raises nothing: a number
    gives a chart with undefined fields. The JSON [null] passes through
    the [card] handler and makes the property reads of the [chart] and
    [map] handlers throw a [TypeError]. *)
Example structured_payload_shapes :
  handle_chart (js "5") = Normal (ChartBlock None None (JObject []))
  ∧ handle_card (js "null") = Normal (CardBlock JNull)
  ∧ handle_chart (js "null") = Throw TypeError
  ∧ handle_map (js "null") = Throw TypeError.
Proof. vm_compute. by split_and!. Qed.

End malformed.

(** ** Messages without structured regions *)

Section always_returns.
Import IAMessage Spec.

Lemma run_replacer_returns text ms : ∀ st,
  (∀ m, m ∈ ms → ∃ b, handler_for (m_p1 m) (m_p2 m) = Normal b) →
  ∃ st', run_replacer text st ms = (st', None).
Proof.
  induction ms as [|m ms IH]; intros st Hall; simpl; [by eexists|].
  destruct (Hall m) as [b Hb]; [apply list_elem_of_here|].
  pose proof (replacer_spec text st m) as Hs. rewrite Hb in Hs.
  destruct Hs as (st1 & -> & _). apply IH.
  intros m' Hin. apply Hall. by apply list_elem_of_further.
Qed.

(** Only the handlers of [chart], [card] and [map] can throw: a message
    in which the pattern finds no region of these kinds is always
    parsed to the end. *)
Lemma processMessage_returns text :
  (∀ m, m ∈ regex_matches text → m_p1 m ∉ structured_kinds) →
  ∃ es, processMessage_spans text [] = (es, None).
Proof.
  intros Hall. unfold processMessage_spans.
  destruct (run_replacer_returns text (regex_matches text) (PM 0 [])) as [st ->].
  - intros m Hin.
    assert (m_p1 m ∈ kinds) as Hk
      by (eapply well_placed_kinds; [apply regex_matches_placed | done]).
    destruct (kinds_cases _ Hk) as [Hg|[Hc|Hs]].
    + rewrite (handler_for_generic _ _ Hg). by eexists.
    + rewrite Hc. by eexists.
    + by destruct (Hall m Hin).
  - case_bool_decide; by eexists.
Qed.

End always_returns.

(** ** The code handler *)

Section code_handler.
Import IAMessage Spec.

Lemma greedy_word_Some {R} (s acc : jsstring)
    (k : jsstring → jsstring → option R) r :
  greedy_word s acc k = Some r →
  ∃ w s', s = w ++ s' ∧ Forall (λ c, is_word c = true) w
    ∧ k (acc ++ w) s' = Some r.
Proof.
  revert acc; induction s as [|c s IH]; intros acc; simpl.
  - intros H. exists [], []. split_and!; [done | apply Forall_nil_2 | by rewrite app_nil_r].
  - destruct (is_word c) eqn:Ew.
    + destruct (greedy_word s (acc ++ [c]) k) as [r'|] eqn:E.
      * intros [= ->]. apply IH in E as (w & s' & -> & Hw & Hk).
        exists (c :: w), s'. rewrite <- app_assoc in Hk.
        split_and!; [done | by constructor | done].
      * intros H. exists [], (c :: s). split_and!; [done | apply Forall_nil_2 | by rewrite app_nil_r].
    + intros H. exists [], (c :: s). split_and!; [done | apply Forall_nil_2 | by rewrite app_nil_r].
Qed.

Lemma greedy_word_fallback {R} (s acc : jsstring)
    (k : jsstring → jsstring → option R) r :
  k acc s = Some r → is_Some (greedy_word s acc k).
Proof.
  intros H. destruct s as [|c s]; simpl; [by rewrite H|].
  destruct (is_word c); [|by rewrite H].
  destruct (greedy_word s (acc ++ [c]) k); [done | by rewrite H].
Qed.

Lemma greedy_word_complete {R} (w s acc : jsstring)
    (k : jsstring → jsstring → option R) r :
  Forall (λ c, is_word c = true) w →
  k (acc ++ w) s = Some r → is_Some (greedy_word (w ++ s) acc k).
Proof.
  intros Hw. revert acc. induction Hw as [|c w Hc _ IH]; intros acc; simpl.
  - rewrite app_nil_r. apply greedy_word_fallback.
  - intros Hk. rewrite Hc.
    destruct (IH (acc ++ [c])) as [r' ->]; [by rewrite <- app_assoc | done].
Qed.

Lemma lazy_any_complete {R} (c s acc : jsstring)
    (k : jsstring → jsstring → option R) r :
  k (acc ++ c) s = Some r → is_Some (lazy_any (c ++ s) acc k).
Proof.
  revert acc; induction c as [|d c IH]; intros acc; simpl app.
  - rewrite app_nil_r. intros H. by rewrite (lazy_any_now _ _ _ _ H).
  - intros H. simpl. destruct (k acc (d :: c ++ s)); [done|].
    apply IH. by rewrite <- app_assoc.
Qed.

Lemma fence_at_Some s g1 g2 :
  fence_at s = Some (g1, g2) →
  ∃ post, s = js "```" ++ g1 ++ [line_feed] ++ g2 ++ js "```" ++ post
    ∧ Forall (λ c, is_word c = true) g1.
Proof.
  unfold fence_at. intros H.
  apply lit_Some in H as (s1 & -> & H).
  apply greedy_word_Some in H as (w & s2 & -> & Hw & H).
  apply lit_Some in H as (s3 & -> & H).
  apply lazy_any_Some in H as (b & s4 & -> & H).
  apply lit_Some in H as (s5 & -> & H).
  injection H as <- <-. by exists s5.
Qed.

Lemma fence_at_complete lang body post :
  Forall (λ c, is_word c = true) lang →
  is_Some (fence_at (js "```" ++ lang ++ [line_feed] ++ body ++ js "```" ++ post)).
Proof.
  intros Hw. unfold fence_at. rewrite lit_app.
  assert (is_Some (lazy_any (body ++ js "```" ++ post) []
            (λ g2 s4, lit (js "```") s4 (λ _, Some (lang, g2))))) as [r Hr].
  { eapply lazy_any_complete. by rewrite lit_app. }
  eapply greedy_word_complete; [done|]. rewrite lit_app. exact Hr.
Qed.

(** The word class of the pattern is the alphabet written out. *)
Lemma is_word_alphabet c : is_word c = true ↔ c ∈ word_alphabet.
Proof.
  split.
  - intros Hw.
    assert (c < 123)%N as Hlt.
    { unfold is_word in Hw. destruct (N.ltb_spec c 123) as [|Hge]; [done|].
      assert ((c <=? 57) = false)%N as E1 by (apply N.leb_gt; lia).
      assert ((c <=? 90) = false)%N as E2 by (apply N.leb_gt; lia).
      assert ((c =? 95) = false)%N as E3 by (apply N.eqb_neq; lia).
      assert ((c <=? 122) = false)%N as E4 by (apply N.leb_gt; lia).
      rewrite E1, E2, E3, E4, !andb_false_r in Hw. discriminate. }
    assert (forallb (λ d, implb (is_word d) (bool_decide (d ∈ word_alphabet)))
              (N.of_nat <$> seq 0 123) = true) as Hall by (vm_compute; reflexivity).
    rewrite forallb_forall in Hall.
    assert (bool_decide (c ∈ word_alphabet) = true) as Hb.
    { specialize (Hall c). rewrite Hw in Hall. apply Hall.
      apply list_elem_of_In, list_elem_of_fmap. exists (N.to_nat c).
      split; [lia|]. apply elem_of_seq. lia. }
    revert Hb. by case_bool_decide.
  - assert (forallb is_word word_alphabet = true) as Hall by (vm_compute; reflexivity).
    rewrite forallb_forall in Hall. intros Hin. by apply Hall, list_elem_of_In.
Qed.

Lemma word_run_alphabet (w : jsstring) :
  Forall (λ c, is_word c = true) w ↔ Forall (λ c, c ∈ word_alphabet) w.
Proof. apply Forall_iff. intros c. apply is_word_alphabet. Qed.

Lemma fence_exec_Some s g1 g2 : fence_exec s = Some (g1, g2) → fenced s g1 g2.
Proof.
  induction s as [|d s IH]; simpl.
  - done.
  - destruct (fence_at (d :: s)) as [[a b]|] eqn:E.
    + intros [= -> ->]. apply fence_at_Some in E as (post & ? & ?%word_run_alphabet).
      by exists [], post.
    + intros (pre & post & -> & ?)%IH. by exists (d :: pre), post.
Qed.

Lemma fence_exec_complete s lang body :
  fenced s lang body → is_Some (fence_exec s).
Proof.
  assert (∀ s', fence_exec s' =
            match fence_at s' with
            | Some r => Some r
            | None => match s' with [] => None | _ :: r => fence_exec r end
            end) as Hunfold by (by intros []).
  intros (pre & post & -> & Hw%word_run_alphabet). induction pre as [|d pre IH].
  - destruct (fence_at_complete lang body post Hw) as [r Hr].
    change ([] ++ ?x) with x. by rewrite Hunfold, Hr.
  - change ((d :: pre) ++ ?x) with (d :: (pre ++ x)).
    rewrite Hunfold. by destruct (fence_at _).
Qed.

(** C4 (as amended): the handler the table gives for a [code] region
    looks in the captured content for three backquotes, a language
    token made only of ASCII letters, digits and underscores (it may be
    empty), a line feed right after the token, a body and three
    backquotes. If there is such a sub-pattern, the block has the token
    and the body of one, the body trimmed and rendered; if there is
    none (so also when the token holds any other character, or the line
    ends otherwise), the whole content, trimmed and rendered, is the
    body and the language is the default, the literal [plain-text]. So
    [<code></code>] gives [plain-text] and an empty body. *)
Theorem C4_code_block (p2 : jsstring) :
  ((∃ lang body, fenced p2 lang body
      ∧ handler_for (js "code") p2
        = Normal (CodeBlock (Marked true (trim body)) lang))
   ∨ ((∀ lang body, ¬ fenced p2 lang body)
      ∧ handler_for (js "code") p2
        = Normal (CodeBlock (Marked true (trim p2)) (js "plain-text"))))
  ∧ processMessage (js "<code></code>")
    = ([CodeBlock (Marked true []) (js "plain-text")], None).
Proof.
  split; [|vm_compute; reflexivity].
  change (handler_for (js "code") p2) with (handle_code p2).
  unfold handle_code, cleanContent. destruct (fence_exec p2) as [[g1 g2]|] eqn:E.
  - left. exists g1, g2. split; [by apply fence_exec_Some | done].
  - right. split; [|done]. intros lang body [r Hr]%fence_exec_complete. congruence.
Qed.

(** C4 as worded fails twice. The content made of a fence with the
    language token [c++] and the body [int x;] holds a fenced
    sub-pattern in the words of the specification, yet the block has
    neither that token nor that body, nor those of any other fence: the
    whole content is its body and its language is the default. And the
    default, as [<code></code>] shows it, is the literal [plain-text],
    not [plain text]. *)
Lemma C4_counterexample :
  let p2 := js "```c++" ++ [line_feed] ++ js "int x;```" in
  fenced_as_worded p2 (js "c++") (js "int x;")
  ∧ handler_for (js "code") p2
    = Normal (CodeBlock (Marked true p2) (js "plain-text"))
  ∧ ¬ (∃ lang body, fenced_as_worded p2 lang body
         ∧ handler_for (js "code") p2
           = Normal (CodeBlock (Marked true (trim body)) lang))
  ∧ processMessage (js "<code></code>")
    ≠ ([CodeBlock (Marked true []) sentinel_as_worded], None).
Proof.
  intros p2. split_and!.
  - exists [], []. split_and!; [reflexivity | done |].
    repeat constructor; by_decision.
  - vm_compute. reflexivity.
  - intros (lang & body & (pre & post & Hp & _) & Hh).
    assert (handler_for (js "code") p2
            = Normal (CodeBlock (Marked true p2) (js "plain-text"))) as Hv
      by (vm_compute; reflexivity).
    rewrite Hv in Hh. injection Hh as _ <-.
    assert (ch "p" ∈ p2) as Hin.
    { rewrite Hp. apply elem_of_app. right.
      apply elem_of_app. right. apply list_elem_of_here. }
    revert Hin. by_decision.
  - vm_compute. discriminate.
Qed.

End code_handler.

(** ** The local echo *)

Section local_echo.
Import HumanMessage Spec.

Lemma split_without c (s : jsstring) : c ∉ s → split c s = [s].
Proof.
  induction s as [|d s IH]; simpl; [done|].
  intros [Hd Hs]%not_elem_of_cons.
  rewrite bool_decide_eq_false_2 by congruence. by rewrite IH.
Qed.

Lemma split_with c (s : jsstring) :
  c ∈ s → ∃ seg seg' segs, split c s = seg :: seg' :: segs.
Proof.
  induction s as [|d s IH]; simpl; [by intros ?%elem_of_nil|].
  intros Hin. case_bool_decide as Hd.
  - destruct (split c s) as [|seg segs] eqn:E; [|by eexists _, _, _].
    destruct s; simpl in E; [done|]. case_bool_decide; [done|].
    by destruct (split c s).
  - apply elem_of_cons in Hin as [->|Hin]; [done|].
    destruct (IH Hin) as (seg & seg' & segs & ->). by eexists _, _, _.
Qed.

Lemma head_split c (s : jsstring) : head (split c s) = Some (before_first c s).
Proof.
  induction s as [|d s IH]; simpl; [done|].
  case_bool_decide; [done|].
  destruct (split c s) as [|seg segs]; [done|]. simpl in *. by injection IH as ->.
Qed.

Lemma after_last_without c (s : jsstring) : c ∉ s → after_last c s = s.
Proof.
  destruct s as [|d s]; simpl; [done|]. intros [Hd Hs]%not_elem_of_cons.
  rewrite bool_decide_eq_false_2 by done. by rewrite bool_decide_eq_false_2 by congruence.
Qed.

Lemma last_split c (s : jsstring) : last (split c s) = Some (after_last c s).
Proof.
  induction s as [|d s IH]; simpl; [done|].
  destruct (decide (c ∈ s)) as [Hin|Hnot].
  - rewrite (bool_decide_eq_true_2 _ Hin).
    destruct (split_with c s Hin) as (seg & seg' & segs & E). rewrite E in IH |- *.
    by case_bool_decide.
  - rewrite (bool_decide_eq_false_2 _ Hnot), (split_without c s Hnot).
    by case_bool_decide.
Qed.

Lemma last_tail_split c (s : jsstring) :
  last (tail (split c s))
  = if bool_decide (c ∈ s) then Some (after_last c s) else None.
Proof.
  case_bool_decide as Hin.
  - rewrite <- last_split. by destruct (split_with c s Hin) as (? & ? & ? & ->).
  - by rewrite split_without.
Qed.

Lemma getFileType_marker text : getFileType text = Some (before_first (ch "@") text).
Proof. apply head_split. Qed.

Lemma getFileName_cuts text :
  Doc.getFileName text
  = Some (before_first (ch ".") (after_last (ch "/") (after_last (ch "@") text))).
Proof.
  unfold Doc.getFileName, pop, shift. simpl.
  rewrite last_split. simpl. rewrite last_split. simpl. apply head_split.
Qed.

(** C6 (as amended): the marker of a local echo is what precedes its
    first [@], the payload what follows its last [@]. With the marker
    [audio] the transcript is the payload up to its first [#] and the
    playback URL what follows its last [#] (undefined without a [#]);
    with the marker [file] the display name is the payload after its
    last [/] and up to its first [.]; any other string is the text
    itself, literal when it has no line feed and no markup unit and
    rendered as markup otherwise. The three examples of the
    specification come out as it says. *)
Theorem C6_local_echo (text : jsstring) :
  render text = Some (echo_view text)
  ∧ render (js "audio@hello world#http://x/a.wav")
    = Some (AudioView (Some (js "hello world")) (Some (js "http://x/a.wav")))
  ∧ render (js "file@/tmp/report.pdf") = Some (FileView (Some (js "report")))
  ∧ render (js "just text") = Some (TextView (Raw (js "just text")) true).
Proof.
  split_and!; [|vm_compute; reflexivity..].
  unfold render, onMounted, getAudio, processMessage, echo_view, pop, shift.
  simpl. rewrite last_split. simpl.
  rewrite head_split, last_tail_split, getFileName_cuts, !getFileType_marker.
  simpl.
  destruct (decide (before_first (ch "@") text = js "file")) as [Hf|Hf].
  - rewrite (bool_decide_eq_true_2 _ (f_equal Some Hf)).
    by rewrite (bool_decide_eq_true_2 _ Hf).
  - rewrite (bool_decide_eq_false_2 (Some _ = Some (js "file"))) by congruence.
    rewrite (bool_decide_eq_false_2 _ Hf).
    destruct (decide (before_first (ch "@") text = js "audio")) as [Ha|Ha].
    + rewrite (bool_decide_eq_true_2 _ (f_equal Some Ha)).
      rewrite (bool_decide_eq_true_2 _ Ha).
      rewrite (bool_decide_eq_false_2 (Some _ ≠ Some (js "audio"))) by (by rewrite Ha; intros []).
      done.
    + rewrite (bool_decide_eq_false_2 (Some _ = Some (js "audio"))) by congruence.
      rewrite (bool_decide_eq_false_2 _ Ha).
      rewrite (bool_decide_eq_true_2 (Some _ ≠ Some (js "audio"))) by congruence.
      rewrite (bool_decide_eq_true_2 (Some _ ≠ Some (js "file"))) by congruence.
      simpl. by destruct (negb (includes line_feed text) && negb (markdownPattern_test text)).
Qed.

(** C6 as worded fails on an audio echo with two [#]: the transcript
    shown stops at the first [#], not at the last. *)
Lemma C6_counterexample :
  let text := js "audio@a#b#u" in
  render text = Some (AudioView (Some (js "a")) (Some (js "u")))
  ∧ worded_audio text = AudioView (Some (js "a#b")) (Some (js "u"))
  ∧ render text ≠ Some (worded_audio text).
Proof. vm_compute. split_and!; [reflexivity | reflexivity | discriminate]. Qed.

End local_echo.

(** ** The stored session *)

Section session.
Import ContentChat ChatView.

(** The request carries a session identifier exactly when a non-empty
    one with the prefix is stored. *)
Lemma build_request_session (msg : jsstring) (storage : gmap jsstring jsstring)
    (v : jsstring) :
  session_id (build_request msg storage) = Some v
  ↔ storage !! js "session_id" = Some v ∧ v ≠ []
    ∧ startsWith (js "sess_") v = true.
Proof.
  unfold build_request, truthy_string. cbn [session_id].
  destruct (storage !! js "session_id") as [w|]; [|by split; [|intros [? _]]].
  destruct (decide (w = [])) as [->|Hw].
  - rewrite bool_decide_eq_true_2 by done. cbn [negb andb].
    split; [done | by intros ([= <-] & ? & _)].
  - rewrite bool_decide_eq_false_2 by done. cbn [negb andb].
    destruct (startsWith (js "sess_") w) eqn:E.
    + split; [by intros [= <-] | by intros (? & _)].
    + split; [done | intros ([= <-] & _ & ?); congruence].
Qed.

(** C7: a stored session identifier that does not start with [sess_]
    is never put in the body of a chat request: the next send goes out
    with the query alone. When the view is mounted, such a value (if
    not empty) is removed from the storage. *)
Theorem C7_invalid_session_discarded (msg v : jsstring) (random : N) (p : page) :
  localStorage p !! js "session_id" = Some v →
  startsWith (js "sess_") v = false →
  (fetchCHAT_send msg p).2 = ChatRequest msg None
  ∧ (v ≠ [] → localStorage (onMounted random p) !! js "session_id" = None).
Proof.
  intros Hv Hp. split.
  - unfold fetchCHAT_send, build_request. cbn [snd localStorage]. rewrite Hv, Hp.
    by rewrite andb_false_r.
  - intros Hne. unfold onMounted. cbn [localStorage].
    rewrite lookup_insert_ne by done. rewrite Hv, Hp.
    unfold truthy_string. rewrite bool_decide_eq_false_2 by done. cbn [negb andb].
    apply lookup_delete_eq.
Qed.

Lemma C7_invalid_session_discarded_witness :
  let p := Page [] {[ js "session_id" := js "abc123" ]} in
  localStorage p !! js "session_id" = Some (js "abc123")
  ∧ startsWith (js "sess_") (js "abc123") = false
  ∧ (fetchCHAT_send (js "hola") p).2 = ChatRequest (js "hola") None
  ∧ (js "abc123" ≠ [] →
     localStorage (onMounted 7 p) !! js "session_id" = None).
Proof.
  intros p.
  assert (localStorage p !! js "session_id" = Some (js "abc123")) as H1
    by apply lookup_singleton_eq.
  assert (startsWith (js "sess_") (js "abc123") = false) as H2 by reflexivity.
  split_and!; [exact H1 | exact H2 | ..];
    apply (C7_invalid_session_discarded (js "hola") (js "abc123") 7 p H1 H2).
Defined.

End session.

(** ** A failed chat request *)

Section failure.
Import ContentChat ChatView.

Lemma pop_message_snoc ms m : pop_message (ms ++ [m]) = ms.
Proof. unfold pop_message, pop. simpl. apply removelast_last. Qed.

(** The [catch] block replaces the last message of the list, whatever
    it is, by the error message, and leaves the storage alone. *)
Lemma fetchCHAT_settle_rejected (random : N) (prior : list message)
    (lastMessage : message) (storage : gmap jsstring jsstring) :
  fetchCHAT_settle Rejected random (Page (prior ++ [lastMessage]) storage)
  = Page (prior ++ [set_isFirst false (error_message random)]) storage.
Proof.
  unfold fetchCHAT_settle, addMessage, handleBotMessage.
  cbn [as_object messages localStorage].
  rewrite pop_message_snoc, bool_decide_eq_false_2; [done|].
  rewrite length_app. simpl. lia.
Qed.


End failure.

(** ** Votes *)

Section votes.
Import IAMessage.

Lemma handlevote_first msg vote st :
  selectedVote st = None →
  handlevote msg vote st = VoteState (Some vote) (voteCalls st ++ [(id msg, vote)]).
Proof. unfold handlevote. by intros ->. Qed.

(** C9: once the vote of an assistant message is set, up or down, every
    later vote attempt on that message leaves the state of the bubble
    as it is: the vote is the same and no further call is made. *)
Theorem C9_vote_is_final (msg : message) (st : vote_state) (v : bool)
    (later : list bool) :
  selectedVote st = Some v →
  foldl (λ s vote, handlevote msg vote s) st later = st.
Proof.
  intros Hv. induction later as [|vote later IH]; simpl; [done|].
  unfold handlevote at 2. by rewrite Hv.
Qed.

Lemma C9_vote_is_final_witness :
  let msg := Message (Some (IdRandom 5)) false (Some (js "hola")) false (Some false) false None in
  let st := handlevote msg true (VoteState None []) in
  selectedVote st = Some true
  ∧ foldl (λ s vote, handlevote msg vote s) st [false; true; false] = st.
Proof.
  intros msg st.
  assert (selectedVote st = Some true) as H by reflexivity.
  split; [exact H | exact (C9_vote_is_final msg st true [false; true; false] H)].
Defined.

End votes.

(** ** A user message after a user message *)

Section user_messages.
Import ContentChat.

(** C10: when a user message that is not pending is added and the last
    message of the list is a user message, that last message is removed
    first and the new one is put at the end: the list keeps its length,
    so this is no pure append. *)
Theorem C10_user_message_replaces_last (messages : list message)
    (lastMessage : message) (newMessage : jsstring) :
  isUser lastMessage = true →
  addMessage true false (Text newMessage) (messages ++ [lastMessage])
  = messages
    ++ [Message (Some (IdCount (length messages + 1))) true (Some newMessage)
          false None false None]
  ∧ length (addMessage true false (Text newMessage) (messages ++ [lastMessage]))
    = length (messages ++ [lastMessage]).
Proof.
  intros Hu.
  assert (addMessage true false (Text newMessage) (messages ++ [lastMessage])
          = messages
            ++ [Message (Some (IdCount (length messages + 1))) true
                  (Some newMessage) false None false None]) as H.
  { unfold addMessage, handleUserMessage. simpl.
    rewrite last_snoc, Hu. by rewrite pop_message_snoc. }
  split; [done|]. rewrite H, !length_app. done.
Qed.

Lemma C10_user_message_replaces_last_witness :
  let pendingAudio :=
    Message None true (Some (js "procesando audio...")) true None false None in
  let greeting := ContentChat.greeting 3 in
  isUser pendingAudio = true
  ∧ addMessage true false (Text (js "hola")) ([greeting] ++ [pendingAudio])
    = [greeting]
      ++ [Message (Some (IdCount (length [greeting] + 1))) true (Some (js "hola"))
            false None false None]
  ∧ length (addMessage true false (Text (js "hola")) ([greeting] ++ [pendingAudio]))
    = length ([greeting] ++ [pendingAudio]).
Proof.
  intros pendingAudio greeting.
  assert (isUser pendingAudio = true) as H by reflexivity.
  split; [exact H |
    exact (C10_user_message_replaces_last [greeting] pendingAudio (js "hola") H)].
Defined.

End user_messages.

(** * Further properties *)

(** ** The matches of the pattern *)

Section match_shape.
Import IAMessage Spec Spec2.

(** The lazy star takes the shortest run its continuation accepts. *)
Lemma lazy_any_shortest {R} (s acc : jsstring)
    (k : jsstring → jsstring → option R) r :
  lazy_any s acc k = Some r →
  ∃ c s', s = c ++ s' ∧ k (acc ++ c) s' = Some r
    ∧ ∀ c1 c2, c = c1 ++ c2 → c2 ≠ [] → k (acc ++ c1) (c2 ++ s') = None.
Proof.
  revert acc; induction s as [|d s IH]; intros acc; simpl.
  - destruct (k acc []) eqn:E; [|done]. intros [= ->].
    exists [], []. split_and!; [done | by rewrite app_nil_r |].
    intros c1 c2 Hc. by destruct c1, c2.
  - destruct (k acc (d :: s)) eqn:E.
    + intros [= ->]. exists [], (d :: s). split_and!; [done | by rewrite app_nil_r |].
      intros c1 c2 Hc. by destruct c1, c2.
    + intros (c & s' & -> & Hk & Hmin)%IH. exists (d :: c), s'.
      rewrite <- app_assoc in Hk. split_and!; [done..|].
      intros [|d' c1] c2 Hc Hc2; simpl in Hc.
      * subst c2. by rewrite app_nil_r.
      * injection Hc as <- ->. specialize (Hmin c1 c2 eq_refl Hc2).
        by rewrite <- app_assoc in Hmin.
Qed.

Lemma lit3_app {R} (p q r s : jsstring) (k : jsstring → option R) :
  lit p s (λ s5, lit q s5 (λ s6, lit r s6 k)) = lit (p ++ q ++ r) s k.
Proof.
  rewrite (lit_startsWith (p ++ q ++ r)), !startsWith_app_split, lit_startsWith.
  destruct (startsWith p s); simpl; [|done].
  rewrite ?lit_startsWith. destruct (startsWith q _); simpl; [|done].
  rewrite ?lit_startsWith, !drop_drop, !length_app.
  destruct (startsWith r _); [|done]. do 2 f_equal. lia.
Qed.

(** The content of a match holds no closing tag of its kind: the first
    one ends the region. *)
Lemma regex_at_content s p1 p2 rest :
  regex_at s = Some (p1, p2, rest) → ¬ occurs (js "</" ++ p1 ++ js ">") p2.
Proof.
  unfold regex_at. intros H.
  apply lit_Some in H as (s1 & -> & H).
  apply alt_Some in H as (q & s2 & Hq & -> & H).
  apply lit_Some in H as (s3 & -> & H).
  apply lazy_any_shortest in H as (c & s4 & -> & H & Hmin).
  assert (q = p1 ∧ c = p2) as [<- <-].
  { apply lit_Some in H as (? & _ & H). apply lit_Some in H as (? & _ & H).
    apply lit_Some in H as (? & _ & H). by injection H as <- <- _. }
  intros (a & b & ->).
  specialize (Hmin a ((js "</" ++ q ++ js ">") ++ b) eq_refl).
  rewrite lit3_app, <- (app_assoc (js "</" ++ q ++ js ">") b s4), lit_app in Hmin.
  by discriminate Hmin.
Qed.

Lemma matches_from_shape text s : ∀ pos li m,
  drop pos text = s → m ∈ matches_from pos li s →
  m_p1 m ∈ kinds
  ∧ m_match m = region (m_p1 m) (m_p2 m)
  ∧ slice (m_offset m) (m_offset m + length (m_match m)) text = m_match m
  ∧ ¬ occurs (js "</" ++ m_p1 m ++ js ">") (m_p2 m).
Proof.
  induction s as [|d s IH]; intros pos li m Hs; simpl; [by intros ?%elem_of_nil|].
  assert (drop (S pos) text = s) as Hs'.
  { replace (S pos) with (pos + 1) by lia. by rewrite <- drop_drop, Hs. }
  case_bool_decide; [by apply IH|].
  destruct (regex_at (d :: s)) as [[[p1 p2] rest]|] eqn:E; [|by apply IH].
  intros [->|Hin]%elem_of_cons; [|by eapply IH].
  pose proof (regex_at_Some _ _ _ _ E) as [Hk Hd].
  pose proof (regex_at_content _ _ _ _ E) as Hc.
  assert (d :: s = region p1 p2 ++ rest) as Hd'
    by (rewrite Hd; unfold region; by rewrite <- !app_assoc).
  assert (take (S (length s) - length rest) (d :: s) = region p1 p2) as Ht.
  { change (S (length s)) with (length (d :: s)). rewrite Hd', length_app.
    replace (length (region p1 p2) + length rest - length rest)
      with (length (region p1 p2)) by lia.
    by rewrite take_app_length. }
  cbn [m_p1 m_p2 m_match m_offset]. simpl length. rewrite Ht.
  split_and!; [done..| |done].
  unfold slice. rewrite Hs, Hd'.
  replace (pos + length (region p1 p2) - pos) with (length (region p1 p2)) by lia.
  by rewrite take_app_length.
Qed.

(** X1. Every match of the pattern in a message is a whole tagged
    region of one of the eight kinds, found in the message at the
    offset recorded; its content holds no closing tag of its own kind
    (the first closing tag ends the region). *)
Theorem regex_match_shape (text : jsstring) (m : rmatch) :
  m ∈ regex_matches text →
  m_p1 m ∈ kinds
  ∧ m_match m = region (m_p1 m) (m_p2 m)
  ∧ slice (m_offset m) (m_offset m + length (m_match m)) text = m_match m
  ∧ ¬ occurs (js "</" ++ m_p1 m ++ js ">") (m_p2 m).
Proof. apply (matches_from_shape text text 0 0). apply drop_0. Qed.

Lemma regex_match_shape_witness :
  let text := js "a<doc><doc>x</doc></doc>" in
  let m := RMatch (js "<doc><doc>x</doc>") (js "doc") (js "<doc>x") 1 in
  m ∈ regex_matches text
  ∧ m_p1 m ∈ kinds
  ∧ m_match m = region (m_p1 m) (m_p2 m)
  ∧ slice (m_offset m) (m_offset m + length (m_match m)) text = m_match m
  ∧ ¬ occurs (js "</" ++ m_p1 m ++ js ">") (m_p2 m).
Proof.
  intros text m.
  assert (m ∈ regex_matches text) as H by (vm_compute; apply list_elem_of_here).
  split; [exact H | exact (regex_match_shape text m H)].
Defined.

Lemma well_placed_app text lo ms1 m ms2 :
  well_placed text lo (ms1 ++ m :: ms2) →
  lo ≤ m_offset m
  ∧ m_offset m + length (m_match m) ≤ length text
  ∧ well_placed text (m_offset m + length (m_match m)) ms2.
Proof.
  revert lo; induction ms1 as [|m1 ms1 IH]; intros lo; simpl.
  - intros (? & ? & ? & ? & ?). done.
  - intros (? & ? & ? & ? & Hw). destruct (IH _ Hw) as (? & ? & ?).
    split_and!; [lia | done..].
Qed.

(** X2. Every match is non-empty and ends inside the message, also
    when it is the only one or the last one; and the matches come left
    to right without overlap: a later match starts at or after the end
    of an earlier one. *)
Theorem regex_matches_disjoint (text : jsstring) :
  (∀ m, m ∈ regex_matches text →
     0 < length (m_match m)
     ∧ m_offset m + length (m_match m) ≤ length text)
  ∧ (∀ ms1 ms2 ms3 m1 m2,
       regex_matches text = ms1 ++ m1 :: ms2 ++ m2 :: ms3 →
       m_offset m1 + length (m_match m1) ≤ m_offset m2).
Proof.
  pose proof (regex_matches_placed text) as Hw. split.
  - intros m Hin.
    destruct (matches_from_shape text text 0 0 m (drop_0 _) Hin) as (_ & Hm & _).
    apply list_elem_of_split in Hin as (l1 & l2 & Hl). rewrite Hl in Hw.
    destruct (well_placed_app _ _ _ _ _ Hw) as (_ & ? & _).
    split; [|done]. rewrite Hm. unfold region. rewrite !length_app. simpl. lia.
  - intros ms1 ms2 ms3 m1 m2 H. rewrite H in Hw.
    destruct (well_placed_app _ _ _ _ _ Hw) as (_ & _ & Hw1).
    by destruct (well_placed_app _ _ _ _ _ Hw1) as (? & _).
Qed.

Lemma regex_matches_disjoint_witness :
  let text := js "<doc>a</doc> <image>b</image>" in
  let m1 := RMatch (js "<doc>a</doc>") (js "doc") (js "a") 0 in
  let m2 := RMatch (js "<image>b</image>") (js "image") (js "b") 13 in
  regex_matches text = [] ++ m1 :: [] ++ m2 :: []
  ∧ 0 < length (m_match m2)
  ∧ m_offset m2 + length (m_match m2) ≤ length text
  ∧ m_offset m1 + length (m_match m1) ≤ m_offset m2.
Proof.
  intros text m1 m2.
  assert (regex_matches text = [] ++ m1 :: [] ++ m2 :: []) as H
    by (vm_compute; reflexivity).
  assert (m2 ∈ regex_matches text) as Hin
    by (rewrite H; apply list_elem_of_further, list_elem_of_here).
  destruct (regex_matches_disjoint text) as [Hone Hpair].
  destruct (Hone m2 Hin) as [Hlen Hend].
  split_and!; [exact H | exact Hlen | exact Hend |].
  exact (Hpair [] [] [] m1 m2 H).
Defined.

End match_shape.

(** ** Trimming *)

Section trimming.

Lemma trimStart_split s :
  ∃ w, s = w ++ trimStart s ∧ Forall (λ c, is_whitespace c = true) w.
Proof.
  induction s as [|c s (w & Hs & Hw)]; simpl; [by exists []|].
  destruct (is_whitespace c) eqn:E.
  - exists (c :: w). split; [by rewrite Hs at 1 | by constructor].
  - by exists [].
Qed.

Lemma trimStart_head s c r : trimStart s = c :: r → is_whitespace c = false.
Proof.
  induction s as [|d s IH]; simpl; [done|].
  destruct (is_whitespace d) eqn:E; [done|]. by intros [= <- _].
Qed.

Lemma trimStart_fixed c r : is_whitespace c = false → trimStart (c :: r) = c :: r.
Proof. simpl. by intros ->. Qed.

Lemma trimStart_idemp s : trimStart (trimStart s) = trimStart s.
Proof.
  destruct (trimStart s) as [|c r] eqn:E; [done|].
  apply trimStart_fixed. by eapply trimStart_head.
Qed.

Lemma trimStart_nil s :
  trimStart s = [] ↔ Forall (λ c, is_whitespace c = true) s.
Proof.
  induction s as [|c s IH]; simpl; [by split|].
  destruct (is_whitespace c) eqn:E.
  - rewrite IH. split; [by constructor | by inversion 1].
  - split; [done | inversion 1; congruence].
Qed.

(** Trimming the end keeps a prefix. *)
Lemma trimEnd_split s :
  ∃ w, s = trimEnd s ++ w ∧ Forall (λ c, is_whitespace c = true) w.
Proof.
  unfold trimEnd. destruct (trimStart_split (reverse s)) as (w & Hs & Hw).
  exists (reverse w). split; [|by apply Forall_reverse].
  rewrite <- reverse_app, <- Hs. by rewrite reverse_involutive.
Qed.

Lemma trimEnd_last s c : last (trimEnd s) = Some c → is_whitespace c = false.
Proof.
  unfold trimEnd. rewrite last_reverse.
  destruct (trimStart (reverse s)) as [|d r] eqn:E; [done|].
  intros [= <-]. by eapply trimStart_head.
Qed.

Lemma trimEnd_fixed s c :
  last s = Some c → is_whitespace c = false → trimEnd s = s.
Proof.
  intros Hl Hc. unfold trimEnd. rewrite <- head_reverse in Hl.
  destruct (reverse s) as [|d r] eqn:E; [done|]. injection Hl as ->.
  rewrite trimStart_fixed by done. by rewrite <- E, reverse_involutive.
Qed.

Lemma trim_head s c : head (trim s) = Some c → is_whitespace c = false.
Proof.
  unfold trim. destruct (trimEnd_split (trimStart s)) as (w & Hs & _).
  destruct (trimEnd (trimStart s)) as [|d r] eqn:E; [done|].
  intros [= <-]. simpl in Hs. by eapply trimStart_head.
Qed.

Lemma trim_last s c : last (trim s) = Some c → is_whitespace c = false.
Proof. apply trimEnd_last. Qed.

Lemma trim_idemp s : trim (trim s) = trim s.
Proof.
  destruct (trim s) as [|c r] eqn:E; [done|].
  assert (is_whitespace c = false) as Hc by (apply (trim_head s); by rewrite E).
  unfold trim at 1. rewrite trimStart_fixed by done.
  destruct (last (c :: r)) as [d|] eqn:El; [|by apply last_None in El].
  apply (trimEnd_fixed _ d El). apply (trim_last s). by rewrite E.
Qed.

Lemma trim_nil s : trim s = [] ↔ Forall (λ c, is_whitespace c = true) s.
Proof.
  unfold trim. destruct (trimStart_split s) as (w & Hs & Hw).
  destruct (trimEnd_split (trimStart s)) as (w' & Hs' & Hw'). split.
  - intros E. rewrite E in Hs'. simpl in Hs'. rewrite Hs, Hs'.
    by apply Forall_app.
  - intros Hall. apply trimStart_nil in Hall. by rewrite Hall.
Qed.

End trimming.

(** ** The input box *)

Section input_box.
Import InputChat ContentChat ChatView ChatEvents.

(** X3. [sendMessage] emits an event exactly when the field holds
    something besides white space. The text sent is the field trimmed:
    it is not empty, neither its first nor its last unit is white
    space, and trimming it again changes nothing; the field is emptied.
    A field of white space alone sends nothing and stays as it is. *)
Theorem sendMessage_sends_trimmed (messageText : jsstring) :
  match sendMessage messageText with
  | (Some m, field) =>
      m = Pushed (js "text") (trim messageText)
      ∧ field = []
      ∧ pushed_data m ≠ []
      ∧ trim (pushed_data m) = pushed_data m
      ∧ (∀ c, head (pushed_data m) = Some c → is_whitespace c = false)
      ∧ (∀ c, last (pushed_data m) = Some c → is_whitespace c = false)
      ∧ ¬ Forall (λ c, is_whitespace c = true) messageText
  | (None, field) =>
      field = messageText
      ∧ Forall (λ c, is_whitespace c = true) messageText
  end.
Proof.
  unfold sendMessage, canSend. case_bool_decide as Hlen; cbn [pushed_data].
  - assert (trim messageText ≠ []) as Hne
      by (intros E; rewrite E in Hlen; simpl in Hlen; lia).
    split_and!; [done | done | done | apply trim_idemp | apply trim_head
                 | apply trim_last |].
    by intros ?%trim_nil.
  - split; [done|]. apply trim_nil. destruct (trim messageText); [done|].
    simpl in Hlen. lia.
Qed.

(** X4. What the input box sends reaches the backend as typed, trimmed:
    for a field that can be sent, [UpChat] on the event of
    [sendMessage] is the send of [fetchCHAT] on the trimmed text; it
    adds the echo and the placeholder and issues one request whose
    query is the trimmed text. *)
Theorem typed_message_is_query (messageText : jsstring) (p : page) :
  canSend messageText = true →
  ∃ m, sendMessage messageText = (Some m, [])
    ∧ UpChat m p
      = ((fetchCHAT_send (trim messageText) p).1,
         Requested (ChatRequest (trim messageText)
                      (session_id (build_request (trim messageText) (localStorage p)))))
    ∧ ∃ prior echo,
        messages (UpChat m p).1
        = prior ++ [echo; Message None false None true None false None]
        ∧ text echo = Some (trim messageText) ∧ isUser echo = true.
Proof.
  intros Hc. unfold sendMessage. rewrite Hc. eexists. split; [done|].
  unfold UpChat. cbn [pushed_type pushed_data].
  rewrite bool_decide_eq_false_2 by done. rewrite bool_decide_eq_true_2 by done.
  unfold fetchCHAT_send. cbn [fst messages]. split; [done|].
  unfold addMessage at 1. unfold handleBotMessage. cbn [messages].
  unfold addMessage, handleUserMessage. cbn [as_text].
  eexists _, _. rewrite <- app_assoc. split; [reflexivity|]. done.
Qed.

Lemma typed_message_is_query_witness :
  let messageText := js "  hola  " in
  let p := Page [] ∅ in
  canSend messageText = true
  ∧ ∃ m, sendMessage messageText = (Some m, [])
    ∧ UpChat m p
      = ((fetchCHAT_send (trim messageText) p).1,
         Requested (ChatRequest (trim messageText)
                      (session_id (build_request (trim messageText) (localStorage p)))))
    ∧ ∃ prior echo,
        messages (UpChat m p).1
        = prior ++ [echo; Message None false None true None false None]
        ∧ text echo = Some (trim messageText) ∧ isUser echo = true.
Proof.
  intros messageText p.
  assert (canSend messageText = true) as H by (vm_compute; reflexivity).
  split; [exact H | exact (typed_message_is_query messageText p H)].
Defined.

End input_box.

(** ** One tagged region between two texts *)

Section three_blocks.
Import IAMessage Spec Spec2.

Lemma matches_from_below s1 s2 : ∀ pos li,
  pos + length s1 ≤ li →
  matches_from pos li (s1 ++ s2) = matches_from (pos + length s1) li s2.
Proof.
  induction s1 as [|d s1 IH]; intros pos li Hle; simpl.
  - by rewrite Nat.add_0_r.
  - simpl in Hle. rewrite bool_decide_eq_true_2 by lia.
    rewrite IH by lia. f_equal. lia.
Qed.

Lemma matches_from_none s : ∀ pos li, 60%N ∉ s → matches_from pos li s = [].
Proof.
  intros pos li Hs. rewrite <- (app_nil_r s). by rewrite matches_from_skip.
Qed.

Lemma matches_from_hit_exact s p1 p2 rest pos li :
  regex_at s = Some (p1, p2, rest) → ¬ pos < li →
  matches_from pos li s
  = RMatch (take (length s - length rest) s) p1 p2 pos
      :: matches_from (S pos) (pos + (length s - length rest)) (tail s).
Proof.
  intros H Hlt. pose proof (regex_at_length _ _ _ _ H) as Hlen.
  destruct s as [|d s]; [simpl in Hlen; lia|].
  cbn [matches_from tail]. rewrite bool_decide_eq_false_2 by done. by rewrite H.
Qed.

(** The matches of a text made of a stretch without [<], one region
    whose content holds no closing tag, and another stretch without [<]. *)
Lemma regex_matches_one_region k pre c post :
  k ∈ kinds → 60%N ∉ pre → 60%N ∉ post →
  ¬ occurs (js "</" ++ k ++ js ">") c →
  regex_matches (pre ++ region k c ++ post)
  = [RMatch (region k c) k c (length pre)].
Proof.
  intros Hk Hpre Hpost Hc. unfold regex_matches.
  rewrite matches_from_skip by done. rewrite Nat.add_0_l.
  pose proof (regex_at_region k c post Hk Hc) as Hr.
  assert (js "<" ++ k ++ js ">" ++ c ++ js "</" ++ k ++ js ">" ++ post
          = region k c ++ post) as Heq by (unfold region; by rewrite <- !app_assoc).
  rewrite Heq in Hr.
  rewrite (matches_from_hit_exact _ _ _ _ _ _ Hr) by lia.
  rewrite length_app.
  replace (length (region k c) + length post - length post)
    with (length (region k c)) by lia.
  rewrite take_app_length. f_equal.
  assert (∃ r', region k c = 60%N :: r') as [r' Hr'] by (by eexists).
  rewrite Hr'. cbn [app tail length].
  rewrite matches_from_below by (simpl; lia).
  by apply matches_from_none.
Qed.

(** X5. A tagged region of any of the eight kinds, between two
    non-empty texts without [<], with a content that holds no closing
    tag of its kind and that its handler accepts, gives exactly three
    blocks: the text before (trimmed and rendered), the block of the
    handler, the text after. *)
Theorem region_between_texts (k pre c post : jsstring) (b : block) :
  k ∈ kinds →
  pre ≠ [] → post ≠ [] →
  ch "<" ∉ pre → ch "<" ∉ post →
  contains (js "</" ++ k ++ js ">") c = false →
  handler_for k c = Normal b →
  processMessage (pre ++ region k c ++ post)
  = ([Block (js "text") (cleanContent pre); b;
      Block (js "text") (cleanContent post)], None).
Proof.
  intros Hk Hpre Hpost Hlt1 Hlt2 Hc Hb.
  change (ch "<") with 60%N in Hlt1, Hlt2.
  assert (¬ occurs (js "</" ++ k ++ js ">") c) as Hno
    by (intros Ho%occurs_contains; congruence).
  unfold processMessage, processMessage_spans.
  rewrite (regex_matches_one_region k pre c post Hk Hlt1 Hlt2 Hno).
  cbn [run_replacer]. unfold replacer. cbn [m_offset m_p1 m_p2 m_match lastIndex].
  rewrite Hb. cbn [lastIndex entries push].
  assert (0 < length pre) as Hp by (destruct pre; [done | simpl; lia]).
  assert (0 < length post) as Hq by (destruct post; [done | simpl; lia]).
  rewrite (bool_decide_eq_true_2 (0 < length pre)) by done.
  rewrite (bool_decide_eq_true_2 (_ + _ < _)) by (rewrite !length_app; lia).
  cbn [lastIndex entries push fst snd app fmap list_fmap].
  unfold slice, slice_from. rewrite drop_0, Nat.sub_0_r, take_app_length.
  rewrite app_assoc, <- length_app, drop_app_length.
  unfold cleanContent. by rewrite !trim_idemp.
Qed.

Lemma region_between_texts_witness :
  let k := js "code" in
  let pre := js "Run " in
  let c := js "ls -l" in
  let post := js " now" in
  let b := CodeBlock (cleanContent c) (js "plain-text") in
  k ∈ kinds
  ∧ pre ≠ [] ∧ post ≠ []
  ∧ ch "<" ∉ pre ∧ ch "<" ∉ post
  ∧ contains (js "</" ++ k ++ js ">") c = false
  ∧ handler_for k c = Normal b
  ∧ processMessage (pre ++ region k c ++ post)
    = ([Block (js "text") (cleanContent pre); b;
        Block (js "text") (cleanContent post)], None).
Proof.
  intros k pre c post b.
  assert (k ∈ kinds) as H1 by by_decision.
  assert (pre ≠ []) as H2 by done.
  assert (post ≠ []) as H3 by done.
  assert (ch "<" ∉ pre) as H4 by by_decision.
  assert (ch "<" ∉ post) as H5 by by_decision.
  assert (contains (js "</" ++ k ++ js ">") c = false) as H6 by (vm_compute; reflexivity).
  assert (handler_for k c = Normal b) as H7 by (vm_compute; reflexivity).
  split_and!; [exact H1 | exact H2 | exact H3 | exact H4 | exact H5 | exact H6
               | exact H7 |].
  exact (region_between_texts k pre c post b H1 H2 H3 H4 H5 H6 H7).
Defined.

End three_blocks.

(** ** When the parse throws *)

Section throws.
Import IAMessage Spec Spec2.

Lemma handler_for_throws m e :
  m_p1 m ∈ kinds → handler_for (m_p1 m) (m_p2 m) = Throw e → bad_payload m.
Proof.
  intros [Hg|[Hc|Hs]]%kinds_cases.
  - by rewrite (handler_for_generic _ _ Hg).
  - rewrite Hc. change (handler_for (js "code") (m_p2 m)) with (handle_code (m_p2 m)).
    by unfold handle_code.
  - revert Hs. unfold structured_kinds.
    rewrite !elem_of_cons, elem_of_nil. intros [Hk|[Hk|[Hk|[]]]];
      unfold bad_payload; rewrite Hk.
    + change (handler_for (js "chart") (m_p2 m)) with (handle_chart (m_p2 m)).
      unfold handle_chart.
      destruct (JSON_parse (m_p2 m)) as [v|e'] eqn:Ej; simpl.
      * destruct v; simpl; try done. intros _. right. split; [by_decision | done].
      * intros _. left. rewrite (JSON_parse_throw _ _ Ej).
        split; [by_decision | done].
    + change (handler_for (js "card") (m_p2 m)) with (handle_card (m_p2 m)).
      unfold handle_card.
      destruct (JSON_parse (m_p2 m)) as [v|e'] eqn:Ej; simpl; [done|].
      intros _. left. rewrite (JSON_parse_throw _ _ Ej).
      split; [by_decision | done].
    + change (handler_for (js "map") (m_p2 m)) with (handle_map (m_p2 m)).
      unfold handle_map.
      destruct (JSON_parse (m_p2 m)) as [v|e'] eqn:Ej; simpl.
      * destruct v; simpl; try done. intros _. right. split; [by_decision | done].
      * intros _. left. rewrite (JSON_parse_throw _ _ Ej).
        split; [by_decision | done].
Qed.

Lemma bad_payload_throws m : bad_payload m → ∃ e, handler_for (m_p1 m) (m_p2 m) = Throw e.
Proof.
  intros [[Hk Hj]|[Hk Hj]].
  - exists SyntaxError. by apply handler_for_structured.
  - exists TypeError. revert Hk. rewrite !elem_of_cons, elem_of_nil.
    intros [->|[->|[]]].
    + change (handle_chart (m_p2 m) = Throw TypeError). unfold handle_chart.
      by rewrite Hj.
    + change (handle_map (m_p2 m) = Throw TypeError). unfold handle_map.
      by rewrite Hj.
Qed.

Lemma run_replacer_error text ms : ∀ st st' e,
  run_replacer text st ms = (st', Some e) →
  ∃ m, m ∈ ms ∧ handler_for (m_p1 m) (m_p2 m) = Throw e.
Proof.
  induction ms as [|m ms IH]; intros st st' e; simpl; [done|].
  pose proof (replacer_spec text st m) as Hs.
  destruct (handler_for (m_p1 m) (m_p2 m)) as [b|e'] eqn:Eh;
    destruct Hs as (st1 & -> & _).
  - intros (m' & ? & ?)%IH. exists m'. split; [by apply list_elem_of_further | done].
  - intros [= <- <-]. exists m. split; [apply list_elem_of_here | done].
Qed.

Lemma run_replacer_no_error text ms : ∀ st st' m e,
  run_replacer text st ms = (st', None) → m ∈ ms →
  handler_for (m_p1 m) (m_p2 m) ≠ Throw e.
Proof.
  induction ms as [|m' ms IH]; intros st st' m e; simpl; [by intros _ ?%elem_of_nil|].
  pose proof (replacer_spec text st m') as Hs.
  destruct (handler_for (m_p1 m') (m_p2 m')) as [b|e'] eqn:Eh;
    destruct Hs as (st1 & -> & _); [|done].
  intros Hrun [->|Hin]%elem_of_cons; [by rewrite Eh | by eapply IH].
Qed.

(** X6. [processMessage] ends with an exception exactly when the
    pattern finds a [chart], [card] or [map] region whose content is
    not JSON, or a [chart] or [map] region whose content is the JSON
    [null]; no other content makes it throw. *)
Theorem processMessage_throws_iff (text : jsstring) :
  (processMessage text).2 ≠ None
  ↔ ∃ m, m ∈ regex_matches text ∧ bad_payload m.
Proof.
  unfold processMessage, processMessage_spans.
  destruct (run_replacer text (PM 0 []) (regex_matches text)) as [st [e|]] eqn:E.
  - simpl. split; [|done]. intros _.
    destruct (run_replacer_error _ _ _ _ _ E) as (m & Hin & Hh).
    exists m. split; [done|]. eapply handler_for_throws; [|done].
    eapply well_placed_kinds; [apply regex_matches_placed | done].
  - assert ((let '(es, e) :=
               if bool_decide (lastIndex st < length text)
               then (entries (push (lastIndex st, length text)
                       (Block (js "text")
                          (cleanContent (trim (slice_from (lastIndex st) text)))) st),
                     None)
               else (entries st, None) in (es.*2, e)).2 = @None js_error) as ->
      by (by case_bool_decide).
    split; [done|]. intros (m & Hin & [e He]%bad_payload_throws).
    by destruct (run_replacer_no_error _ _ _ _ _ e E Hin).
Qed.

Lemma truthy_falsy v : truthy v = false ↔ falsy v.
Proof.
  unfold falsy. destruct v as [|b|n|s| |]; simpl.
  - split; [by left | done].
  - split; [intros ->; by right; left|].
    by intros [|[[= ->]|[(? & ? & _)|]]].
  - rewrite negb_false_iff. split; [intros ?; right; right; left; by eexists|].
    by intros [|[|[(? & [= <-] & ?)|]]].
  - rewrite negb_false_iff. split.
    + intros ->%bool_decide_eq_true_1. by do 3 right.
    + intros [|[|[(? & ? & _)|[= ->]]]]; done.
  - split; [done|]. by intros [|[|[(? & ? & _)|]]].
  - split; [done|]. by intros [|[|[(? & ? & _)|]]].
Qed.

Lemma or_default_spec (x : option json) (d : json) :
  (∀ o, x = Some o → ¬ falsy o → or_default x d = o)
  ∧ (∀ o, x = Some o → falsy o → or_default x d = d)
  ∧ (x = None → or_default x d = d).
Proof.
  split_and!.
  - intros o -> Hn. simpl. destruct (truthy o) eqn:E; [done|].
    by apply truthy_falsy in E.
  - intros o -> Hf%truthy_falsy. simpl. by rewrite Hf.
  - by intros ->.
Qed.

(** X7. For any JSON payload but [null] the chart handler returns a
    chart block whose options are never falsy. For an object, the type
    and the data of the block are its own properties of these names,
    and the options are its own [options] when these are not falsy; in
    place of options that are missing, [null], [false], zero or the
    empty string the block has an empty object. A payload that is not
    an object (a number, a string, an array, a boolean) is accepted
    too: type and data are undefined and the options an empty object. *)
Theorem chart_block_fields (p2 : jsstring) (v : json) :
  JSON_parse p2 = Normal v → v ≠ JNull →
  ∃ type data options,
    handler_for (js "chart") p2 = Normal (ChartBlock type data options)
    ∧ ¬ falsy options
    ∧ match v with
      | JObject members =>
          type = own_property (js "type") members
          ∧ data = own_property (js "data") members
          ∧ (∀ o, own_property (js "options") members = Some o →
                  ¬ falsy o → options = o)
          ∧ (∀ o, own_property (js "options") members = Some o →
                  falsy o → options = JObject [])
          ∧ (own_property (js "options") members = None →
             options = JObject [])
      | _ => type = None ∧ data = None ∧ options = JObject []
      end.
Proof.
  intros Hj Hv. change (handler_for (js "chart") p2) with (handle_chart p2).
  unfold handle_chart. rewrite Hj.
  assert (¬ falsy (JObject [])) as Hobj by (by intros [|[|[(? & ? & _)|]]]).
  destruct v as [|b|n|s|items|members]; try done;
    try (cbn [bind get or_default]; eexists _, _, _;
         split_and!; [reflexivity | exact Hobj | done..]).
  cbn [bind get]. eexists _, _, _. split; [reflexivity|].
  destruct (or_default_spec (own_property (js "options") members) (JObject []))
    as (H1 & H2 & H3).
  split_and!; [|done..].
  destruct (own_property (js "options") members) as [o|] eqn:E.
  - intros Hf. destruct (truthy o) eqn:Et.
    + assert (¬ falsy o) as Hn by (intros ?%truthy_falsy; congruence).
      rewrite (H1 o eq_refl Hn) in Hf. by apply Hn.
    + apply truthy_falsy in Et. rewrite (H2 o eq_refl Et) in Hf. by apply Hobj.
  - by rewrite (H3 eq_refl).
Qed.

Lemma chart_block_fields_witness :
  let q := λ s : jsstring, dquote :: s ++ [dquote] in
  let p2 := js "{" ++ q (js "type") ++ js ":" ++ q (js "bar") ++ js ","
            ++ q (js "data") ++ js ":[1]," ++ q (js "options") ++ js ":0}" in
  let v := JObject [ (js "type", JString (js "bar"));
                     (js "data", JArray [JNumber (JNum false 1 0)]);
                     (js "options", JNumber (JNum false 0 0)) ] in
  JSON_parse p2 = Normal v ∧ v ≠ JNull
  ∧ handler_for (js "chart") p2
    = Normal (ChartBlock (Some (JString (js "bar")))
                (Some (JArray [JNumber (JNum false 1 0)])) (JObject [])).
Proof.
  intros q p2 v.
  assert (JSON_parse p2 = Normal v) as H1 by (vm_compute; reflexivity).
  assert (v ≠ JNull) as H2 by done.
  split_and!; [exact H1 | exact H2 |].
  destruct (chart_block_fields p2 v H1 H2)
    as (type & data & options & -> & _ & -> & -> & _ & Hfalsy & _).
  rewrite (Hfalsy (JNumber (JNum false 0 0)) eq_refl); [reflexivity|].
  right. right. left. by eexists.
Defined.

End throws.

(** ** The stored session across requests *)

Section session.
Import ContentChat ChatView ChatEvents Spec Spec2.

Lemma fetchCHAT_send_storage msg p : localStorage (fetchCHAT_send msg p).1 = localStorage p.
Proof. done. Qed.

Lemma fetchCHAT_send_request msg p :
  (fetchCHAT_send msg p).2 = build_request msg (localStorage p).
Proof. done. Qed.

Lemma build_request_lookup (msg msg' : jsstring) (s s' : gmap jsstring jsstring) :
  s !! js "session_id" = s' !! js "session_id" →
  session_id (build_request msg s) = session_id (build_request msg' s').
Proof. unfold build_request. cbn [session_id]. by intros ->. Qed.

Lemma handleUserMessage_snoc msg ms :
  ∃ prior echo,
    handleUserMessage false (Some msg) ms = prior ++ [echo]
    ∧ text echo = Some msg ∧ isUser echo = true ∧ isLoading echo = false.
Proof. unfold handleUserMessage. by eexists _, _. Qed.

(** X8. The session identifier of a reply is the one the next request
    carries, when it is not empty and starts with [sess_]; a reply
    whose identifier is not empty but lacks the prefix makes the next
    request go out without a session; a reply without identifier, or
    with an empty one, and a failed request leave the next request
    with the session of this one. *)
Theorem reply_session_sent_next (msg msg' : jsstring) (s : settlement)
    (random : N) (p : page) :
  session_id (fetchCHAT_send msg' (fetchCHAT msg s random p)).2
  = match s with
    | Resolved result =>
        match result_session_id result with
        | Some sid =>
            if bool_decide (sid = []) then session_id (fetchCHAT_send msg p).2
            else if startsWith (js "sess_") sid then Some sid else None
        | None => session_id (fetchCHAT_send msg p).2
        end
    | Rejected => session_id (fetchCHAT_send msg p).2
    end.
Proof.
  rewrite !fetchCHAT_send_request. unfold fetchCHAT.
  destruct s as [result|]; cbn [fetchCHAT_settle localStorage];
    rewrite ?fetchCHAT_send_storage; [|by apply build_request_lookup].
  destruct (result_session_id result) as [sid|]; [|by apply build_request_lookup].
  unfold truthy_string. case_bool_decide as Hsid; cbn [negb].
  - by apply build_request_lookup.
  - unfold build_request. cbn [session_id]. rewrite lookup_insert_eq.
    unfold truthy_string. rewrite bool_decide_eq_false_2 by done. done.
Qed.

(** X9. After the chat is cleaned the next request carries no session,
    whatever was stored. The list is reset to the one greeting exactly
    when it had more than one message (a list of one message, greeting
    or not, is left as it is), and cleaning again changes nothing. *)
Theorem cleanChat_resets (msg : jsstring) (random random' : N) (p : page) :
  (fetchCHAT_send msg (cleanChat random p)).2 = ChatRequest msg None
  ∧ messages (cleanChat random p)
    = (if bool_decide (1 < length (messages p))
       then [set_isFirst true (greeting random)] else messages p)
  ∧ length (messages (cleanChat random p)) ≤ 1
  ∧ cleanChat random' (cleanChat random p) = cleanChat random p.
Proof.
  assert (messages (cleanChat random p)
          = if bool_decide (1 < length (messages p))
            then [set_isFirst true (greeting random)] else messages p) as Hm.
  { unfold cleanChat, cleanMessages. cbn [messages]. by case_bool_decide. }
  assert (length (messages (cleanChat random p)) ≤ 1) as Hl.
  { rewrite Hm. case_bool_decide; simpl; lia. }
  split_and!; [|done..|].
  - rewrite fetchCHAT_send_request. unfold cleanChat, build_request.
    cbn [localStorage]. by rewrite lookup_delete_eq.
  - unfold cleanChat at 1. unfold cleanMessages.
    rewrite bool_decide_eq_false_2 by lia.
    unfold cleanChat at 2. cbn [localStorage]. rewrite delete_delete_eq.
    reflexivity.
Qed.

(** X10. Cleaning the chat does not cancel a pending request. When the
    reply of a request sent before the cleaning arrives after it, the
    reply takes the place of the greeting: the list is the reply alone,
    not marked as first, and the session of the reply is stored again. *)
Theorem reply_after_clean (msg : jsstring) (result : chat_result)
    (r1 r2 : N) (p : page) :
  let cleaned := cleanChat r1 (fetchCHAT_send msg p).1 in
  let p' := fetchCHAT_settle (Resolved result) r2 cleaned in
  messages cleaned = [set_isFirst true (greeting r1)]
  ∧ messages p'
    = [Message (Some (IdRandom r2)) false (response result) false (Some false)
         false (Some (or_default (result_sources result) (JArray [])))]
  ∧ localStorage p' !! js "session_id"
    = match result_session_id result with
      | Some sid => if bool_decide (sid = []) then None else Some sid
      | None => None
      end.
Proof.
  intros cleaned p'.
  assert (messages cleaned = [set_isFirst true (greeting r1)]) as Hc.
  { unfold cleaned, cleanChat, cleanMessages, fetchCHAT_send. cbn [fst messages].
    rewrite bool_decide_eq_true_2; [done|].
    destruct (handleUserMessage_snoc msg (messages p)) as (prior & echo & He & _).
    change (addMessage true false (Text msg) (messages p))
      with (handleUserMessage false (Some msg) (messages p)).
    rewrite He.
    change (addMessage false true (Text []) (prior ++ [echo]))
      with ((prior ++ [echo]) ++ [Message None false None true None false None]).
    rewrite !length_app. simpl. lia. }
  split_and!; [done|..].
  - unfold p'. cbn [fetchCHAT_settle messages]. by rewrite Hc.
  - unfold p'. cbn [fetchCHAT_settle localStorage].
    assert (localStorage cleaned !! js "session_id" = None) as Hs
      by apply lookup_delete_eq.
    destruct (result_session_id result) as [sid|]; [|done].
    unfold truthy_string. case_bool_decide; cbn [negb]; [done|].
    apply lookup_insert_eq.
Qed.

(** X11. When the view is mounted, a stored session identifier that
    starts with [sess_] is kept and the next request carries it; the
    [transcription] key is set to the text [null] and no other key of
    the storage is touched. *)
Theorem onMounted_keeps_valid_session (msg v : jsstring) (random : N) (p : page) :
  localStorage p !! js "session_id" = Some v →
  startsWith (js "sess_") v = true →
  (fetchCHAT_send msg (onMounted random p)).2 = ChatRequest msg (Some v)
  ∧ localStorage (onMounted random p)
    = <[js "transcription" := js "null"]> (localStorage p).
Proof.
  intros Hv Hs.
  assert (localStorage (onMounted random p)
          = <[js "transcription" := js "null"]> (localStorage p)) as Hst.
  { unfold onMounted. cbn [localStorage]. rewrite lookup_insert_ne by done.
    by rewrite Hv, Hs, andb_false_r. }
  split; [|done].
  rewrite fetchCHAT_send_request, Hst. unfold build_request.
  rewrite lookup_insert_ne by done. rewrite Hv, Hs.
  assert (v ≠ []) as Hne by (by intros ->).
  unfold truthy_string. by rewrite bool_decide_eq_false_2.
Qed.

Lemma onMounted_keeps_valid_session_witness :
  let v := js "sess_42" in
  let p := Page [] {[ js "session_id" := v ]} in
  localStorage p !! js "session_id" = Some v
  ∧ startsWith (js "sess_") v = true
  ∧ (fetchCHAT_send (js "hola") (onMounted 7 p)).2 = ChatRequest (js "hola") (Some v)
  ∧ localStorage (onMounted 7 p)
    = <[js "transcription" := js "null"]> (localStorage p).
Proof.
  intros v p.
  assert (localStorage p !! js "session_id" = Some v) as H1
    by apply lookup_singleton_eq.
  assert (startsWith (js "sess_") v = true) as H2 by reflexivity.
  split_and!; [exact H1 | exact H2 | ..];
    apply (onMounted_keeps_valid_session (js "hola") v 7 p H1 H2).
Defined.

End session.

(** ** The upload of a file *)

Section upload.
Import ContentChat ChatView ChatEvents HumanMessage Spec Spec2.

Lemma after_last_app c (pre s : jsstring) :
  after_last c (pre ++ c :: s) = after_last c s.
Proof.
  induction pre as [|d pre IH]; simpl.
  - case_bool_decide as Hin; [done|].
    rewrite bool_decide_eq_true_2 by done. by rewrite after_last_without.
  - rewrite bool_decide_eq_true_2; [done|].
    apply elem_of_app. right. apply list_elem_of_here.
Qed.

Lemma getAudio_Some text r : ∃ r', getAudio text r = Some r'.
Proof.
  unfold getAudio, pop. cbn [fst]. rewrite last_split. cbn [mbind option_bind].
  destruct (shift (split (ch "#") (after_last (ch "@") text))) as [t audio1].
  destruct (last audio1); by eexists.
Qed.

Lemma render_file_echo fileName :
  render (js "file@" ++ fileName) = Some (FileView (Doc.getFileName fileName)).
Proof.
  unfold render, HumanMessage.onMounted.
  destruct (getAudio_Some (js "file@" ++ fileName) initial) as [r' ->].
  cbn [fmap option_fmap option_map mbind option_bind].
  rewrite getFileType_marker.
  assert (before_first (ch "@") (js "file@" ++ fileName) = js "file") as ->
    by reflexivity.
  rewrite bool_decide_eq_true_2 by done.
  rewrite !getFileName_cuts.
  change (js "file@" ++ fileName) with (js "file" ++ ch "@" :: fileName).
  by rewrite after_last_app.
Qed.

(** X12. The client has no [requestAttachment]: whatever the network
    would answer, an upload ends in the [catch] block. The list then
    ends with the echo of the file, shown as a file card with the
    display name of the file, and the placeholder, still pending; no
    error message is added and the storage is left alone. *)
Theorem loadAttachment_stays_pending (fileName : jsstring)
    (network : upload_settlement) (p : page) :
  ∃ prior echo,
    messages (loadAttachment fileName network p)
    = prior ++ [echo; Message None false None true None false None]
    ∧ isUser echo = true
    ∧ text echo = Some (js "file@" ++ fileName)
    ∧ render (js "file@" ++ fileName) = Some (FileView (Doc.getFileName fileName))
    ∧ Forall (λ m, isError m = true → m ∈ messages p)
        (messages (loadAttachment fileName network p))
    ∧ localStorage (loadAttachment fileName network p) = localStorage p.
Proof.
  unfold loadAttachment.
  assert (requestAttachment network = UploadRejected) as -> by done.
  cbn [messages localStorage].
  set (text := js "file@" ++ fileName).
  change (addMessage true false (Text text) (messages p))
    with (handleUserMessage false (Some text) (messages p)).
  unfold handleUserMessage.
  set (messages1 := match last (messages p) with
                    | Some m => if isUser m then pop_message (messages p)
                                else messages p
                    | None => messages p
                    end).
  assert (Forall (λ m, m ∈ messages p) messages1) as Hsub.
  { apply Forall_forall. intros m. unfold messages1.
    destruct (last (messages p)) as [l|]; [|done].
    destruct (isUser l); [|done].
    unfold pop_message, pop. cbn [snd].
    destruct (messages p) as [|m0 ms] using rev_ind; [done|].
    rewrite removelast_last. intros ?. apply elem_of_app. by left. }
  eexists messages1, _.
  split_and!.
  - change (addMessage false true (Text []) ?ms)
      with (ms ++ [Message None false None true None false None]).
    by rewrite <- app_assoc.
  - done.
  - done.
  - apply render_file_echo.
  - change (addMessage false true (Text []) ?ms)
      with (ms ++ [Message None false None true None false None]).
    rewrite !Forall_app. split_and!.
    + eapply Forall_impl; [exact Hsub|]. by intros m ? _.
    + by apply Forall_singleton.
    + by apply Forall_singleton.
  - done.
Qed.

End upload.

(** ** Invariants of the message list *)

Section message_list.
Import ContentChat ChatView ChatEvents Spec Spec2.

Lemma well_numbered_nil : well_numbered [].
Proof. by intros i m ?. Qed.

Lemma well_numbered_prefix ms ms' : well_numbered (ms ++ ms') → well_numbered ms.
Proof.
  intros H i m Hi. apply H. by apply lookup_app_l_Some.
Qed.

Lemma well_numbered_snoc ms m :
  well_numbered ms →
  (isFirst m = Some true → length ms = 0) →
  (isUser m = true → ∀ n, id m = Some (IdCount n) → n = length ms + 1) →
  well_numbered (ms ++ [m]).
Proof.
  intros H Hf Hu i m' Hi.
  apply lookup_snoc_Some in Hi as [[_ Hi]|[-> <-]]; [by apply H | done].
Qed.

Lemma pop_message_prefix ms : ∃ ms', ms = pop_message ms ++ ms'.
Proof.
  destruct ms as [|m ms] using rev_ind; [by exists []|].
  exists [m]. by rewrite pop_message_snoc.
Qed.

Lemma well_numbered_pop ms : well_numbered ms → well_numbered (pop_message ms).
Proof.
  destruct (pop_message_prefix ms) as [ms' Hms]. intros H.
  rewrite Hms in H. by eapply well_numbered_prefix.
Qed.

Lemma well_numbered_user isLoading newMessage ms :
  well_numbered ms → well_numbered (handleUserMessage isLoading newMessage ms).
Proof.
  intros H. unfold handleUserMessage. destruct isLoading.
  - by apply well_numbered_snoc.
  - apply well_numbered_snoc; [|done|by intros _ n [= <-]].
    destruct (last ms) as [l|]; [|done].
    destruct (isUser l); [by apply well_numbered_pop | done].
Qed.

Lemma well_numbered_bot isLoading newMessage ms :
  isUser newMessage = false →
  well_numbered ms → well_numbered (handleBotMessage isLoading newMessage ms).
Proof.
  intros Hu H. unfold handleBotMessage. destruct isLoading.
  - by apply well_numbered_snoc.
  - case_bool_decide as Hl.
    + destruct ms; [|done]. apply well_numbered_snoc; [done..|].
      cbn [isUser set_isFirst]. by rewrite Hu.
    + apply well_numbered_snoc; [by apply well_numbered_pop | done |].
      cbn [isUser set_isFirst]. by rewrite Hu.
Qed.

Lemma well_numbered_handle e p :
  well_numbered (messages p) → well_numbered (messages (handle e p)).
Proof.
  intros H. destruct e as [random|m|s random|fileName network|random];
    cbn [handle].
  - by apply well_numbered_bot.
  - unfold UpChat. case_bool_decide.
    + by apply well_numbered_user.
    + case_bool_decide; [|done].
      by apply well_numbered_bot, well_numbered_user.
  - destruct s; by apply well_numbered_bot.
  - unfold loadAttachment.
    destruct (requestAttachment network);
      repeat first [ done | apply well_numbered_bot | apply well_numbered_user ].
  - unfold cleanChat, cleanMessages. cbn [messages].
    case_bool_decide; [|done]. apply well_numbered_bot; [done|].
    apply well_numbered_nil.
Qed.

Lemma well_numbered_run events : ∀ p,
  well_numbered (messages p) → well_numbered (messages (run events p)).
Proof.
  induction events as [|e events IH]; intros p H; [done|].
  apply IH. by apply well_numbered_handle.
Qed.

(** X13. Whatever happens to the view, in any order (mounting,
    messages from the input box, replies and failures of requests even
    when they settle late, uploads, cleaning), starting from the empty
    list: a message marked as first is at index 0, and a user message
    whose [id] is a count [n] is at index [n - 1], so that two user
    messages of the list never have the same count. *)
Theorem message_list_well_numbered (events : list event)
    (storage : gmap jsstring jsstring) :
  let messages := messages (run events (Page [] storage)) in
  well_numbered messages
  ∧ ∀ (i j : nat) (m m' : message) (n : nat),
      messages !! i = Some m → messages !! j = Some m' →
      isUser m = true → isUser m' = true →
      id m = Some (IdCount n) → id m' = Some (IdCount n) → i = j.
Proof.
  intros ms.
  assert (well_numbered ms) as H
    by (apply well_numbered_run, well_numbered_nil).
  split; [done|]. intros i j m m' n Hi Hj Hu Hu' Hn Hn'.
  destruct (H i m Hi) as [_ H1]. destruct (H j m' Hj) as [_ H2].
  specialize (H1 Hu n Hn). specialize (H2 Hu' n Hn'). lia.
Qed.

Lemma opens_user isLoading newMessage m ms :
  isUser m = false →
  ∃ ms', handleUserMessage isLoading newMessage (m :: ms) = m :: ms'.
Proof.
  intros Hm. unfold handleUserMessage. destruct isLoading; [by eexists|].
  destruct ms as [|x ms] using rev_ind.
  - simpl. rewrite Hm. by eexists.
  - rewrite app_comm_cons, last_snoc.
    destruct (isUser x); [|by eexists].
    rewrite pop_message_snoc. by eexists.
Qed.

Lemma opens_bot isLoading newMessage m ms :
  isUser newMessage = false → isUser m = false →
  ∃ m' ms', handleBotMessage isLoading newMessage (m :: ms) = m' :: ms'
            ∧ isUser m' = false.
Proof.
  intros Hn Hm. unfold handleBotMessage. destruct isLoading; [by eexists _, _|].
  rewrite bool_decide_eq_false_2 by done.
  destruct ms as [|x ms] using rev_ind.
  - by eexists _, _.
  - rewrite app_comm_cons, pop_message_snoc. by eexists _, _.
Qed.

Lemma opens_handle e p m ms :
  messages p = m :: ms → isUser m = false →
  ∃ m' ms', messages (handle e p) = m' :: ms' ∧ isUser m' = false.
Proof.
  intros Hp Hm. destruct e as [random|pm|s random|fileName network|random];
    cbn [handle].
  - unfold onMounted. cbn [messages]. rewrite Hp. by apply opens_bot.
  - unfold UpChat. case_bool_decide.
    + cbn [fst messages]. rewrite Hp.
      destruct (opens_user true (Some []) m ms Hm) as [ms' E].
      by eexists _, _.
    + case_bool_decide; [|by eexists _, _].
      unfold fetchCHAT_send. cbn [fst messages]. rewrite Hp.
      destruct (opens_user false (Some (InputChat.pushed_data pm)) m ms Hm)
        as [ms' E].
      change (addMessage true false (Text (InputChat.pushed_data pm)) (m :: ms))
        with (handleUserMessage false (Some (InputChat.pushed_data pm)) (m :: ms)).
      rewrite E. by eexists _, _.
  - destruct s; cbn [fetchCHAT_settle messages]; rewrite Hp; by apply opens_bot.
  - unfold loadAttachment.
    destruct (opens_user false (Some (js "file@" ++ fileName)) m ms Hm)
      as [ms' E].
    change (addMessage true false (Text (js "file@" ++ fileName)) (messages p))
      with (handleUserMessage false (Some (js "file@" ++ fileName)) (messages p)).
    rewrite Hp, E.
    destruct (requestAttachment network); cbn [messages]; [|by eexists _, _].
    change (addMessage false true (Text []) (m :: ms'))
      with (m :: ms' ++ [Message None false None true None false None]).
    by apply opens_bot.
  - unfold cleanChat, cleanMessages. cbn [messages].
    case_bool_decide; [by eexists _, _|]. rewrite Hp. by eexists _, _.
Qed.

Lemma opens_run events : ∀ p m ms,
  messages p = m :: ms → isUser m = false →
  ∃ m' ms', messages (run events p) = m' :: ms' ∧ isUser m' = false.
Proof.
  induction events as [|e events IH]; intros p m ms Hp Hm; [by eexists _, _|].
  destruct (opens_handle e p m ms Hp Hm) as (m' & ms' & Hp' & Hm').
  by apply (IH (handle e p) m' ms').
Qed.

(** X14. Once the view is mounted on the empty list, the list is never
    empty again and it never begins with a user message, whatever
    happens next and in whatever order. *)
Theorem assistant_opens_list (random : N) (events : list event)
    (storage : gmap jsstring jsstring) :
  ∃ m ms,
    messages (run (Mounted random :: events) (Page [] storage)) = m :: ms
    ∧ isUser m = false.
Proof.
  change (run (Mounted random :: events) (Page [] storage))
    with (run events (onMounted random (Page [] storage))).
  by eapply opens_run.
Qed.

End message_list.

(** ** Text without a closing tag *)

Section plain_text.
Import IAMessage Spec Spec2.

Lemma regex_matches_closing text m :
  m ∈ regex_matches text → occurs (js "</" ++ m_p1 m ++ js ">") text.
Proof.
  intros Hin.
  destruct (matches_from_shape text text 0 0 m (drop_0 _) Hin)
    as (_ & Hr & Hs & _).
  rewrite Hr in Hs. unfold slice in Hs.
  exists (take (m_offset m) text
          ++ js "<" ++ m_p1 m ++ js ">" ++ m_p2 m),
         (drop (length (region (m_p1 m) (m_p2 m))) (drop (m_offset m) text)).
  rewrite <- (take_drop (m_offset m) text) at 1.
  rewrite <- (take_drop (length (region (m_p1 m) (m_p2 m)))
                (drop (m_offset m) text)) at 1.
  replace (m_offset m + length (region (m_p1 m) (m_p2 m)) - m_offset m)
    with (length (region (m_p1 m) (m_p2 m))) in Hs by lia.
  rewrite Hs. unfold region. by rewrite <- !app_assoc.
Qed.

(** X15. A message in which no closing tag of the eight kinds occurs
    is never cut: an opening tag left unclosed, or any other [<], is
    ordinary text. The result is one [text] block of the whole message,
    or no block when the message is empty, and no exception. *)
Theorem no_closing_tag_is_text (text : jsstring) :
  Forall (λ k, contains (js "</" ++ k ++ js ">") text = false) kinds →
  processMessage text
  = (if bool_decide (text = []) then []
     else [Block (js "text") (cleanContent text)], None).
Proof.
  intros Hno.
  assert (regex_matches text = []) as Hms.
  { destruct (regex_matches text) as [|m ms] eqn:E; [done|].
    assert (m ∈ regex_matches text) as Hin by (rewrite E; apply list_elem_of_here).
    pose proof (regex_matches_closing text m Hin) as Ho%occurs_contains.
    assert (m_p1 m ∈ kinds) as Hk
      by apply (matches_from_shape text text 0 0 m (drop_0 _) Hin).
    rewrite Forall_forall in Hno. specialize (Hno _ Hk). congruence. }
  unfold processMessage, processMessage_spans. rewrite Hms.
  cbn [run_replacer lastIndex entries].
  destruct text as [|c text].
  - done.
  - rewrite (bool_decide_eq_false_2 (c :: text = [])) by done.
    rewrite (bool_decide_eq_true_2 (0 < _)) by (simpl; lia).
    cbn [push entries fmap list_fmap snd]. unfold slice_from. rewrite drop_0.
    unfold cleanContent. by rewrite trim_idemp.
Qed.

Lemma no_closing_tag_is_text_witness :
  let text := js "if a <b then <code>x" in
  Forall (λ k, contains (js "</" ++ k ++ js ">") text = false) kinds
  ∧ processMessage text
    = (if bool_decide (text = []) then []
       else [Block (js "text") (cleanContent text)], None).
Proof.
  intros text.
  assert (Forall (λ k, contains (js "</" ++ k ++ js ">") text = false) kinds)
    as H by (repeat constructor).
  split; [exact H | exact (no_closing_tag_is_text text H)].
Defined.

End plain_text.

(** ** The parts of an echo *)

Section echo_parts.
Import HumanMessage Spec Spec2.

Lemma before_first_notin c (s : jsstring) : c ∉ before_first c s.
Proof.
  induction s as [|d s IH]; simpl; [by intros ?%elem_of_nil|].
  case_bool_decide as Hd; [by intros ?%elem_of_nil|].
  apply not_elem_of_cons. split; [congruence | done].
Qed.

Lemma before_first_prefix c (s : jsstring) : ∃ r, s = before_first c s ++ r.
Proof.
  induction s as [|d s [r IH]]; simpl; [by exists []|].
  case_bool_decide; [by eexists|]. exists r. simpl. by f_equal.
Qed.

Lemma before_first_without c (s : jsstring) : c ∉ s → before_first c s = s.
Proof.
  induction s as [|d s IH]; simpl; [done|]. intros [Hd Hs]%not_elem_of_cons.
  rewrite bool_decide_eq_false_2 by congruence. by rewrite IH.
Qed.

Lemma before_first_app c (s r : jsstring) :
  c ∉ s → before_first c (s ++ c :: r) = s.
Proof.
  induction s as [|d s IH]; simpl.
  - by rewrite bool_decide_eq_true_2.
  - intros [Hd Hs]%not_elem_of_cons.
    rewrite bool_decide_eq_false_2 by congruence. by rewrite IH.
Qed.

Lemma after_last_notin c (s : jsstring) : c ∉ after_last c s.
Proof.
  induction s as [|d s IH]; simpl; [by intros ?%elem_of_nil|].
  case_bool_decide as Hin; [done|].
  case_bool_decide as Hd; [done|].
  apply not_elem_of_cons. split; [congruence | done].
Qed.

Lemma after_last_suffix c (s : jsstring) : ∃ l, s = l ++ after_last c s.
Proof.
  induction s as [|d s [l IH]]; simpl; [by exists []|].
  case_bool_decide.
  - exists (d :: l). simpl. by f_equal.
  - case_bool_decide; [by exists [d] | by exists []].
Qed.

(** X16. [getFileName] never calls a method on [undefined], whatever
    the string. The display name is a run of adjacent units of the
    string and holds no [.], no [/] and no [@]. *)
Theorem getFileName_display_name (fileName : jsstring) :
  ∃ name,
    Doc.getFileName fileName = Some name
    ∧ occurs name fileName
    ∧ ch "." ∉ name ∧ ch "/" ∉ name ∧ ch "@" ∉ name.
Proof.
  rewrite getFileName_cuts. eexists. split; [done|].
  set (a := after_last (ch "@") fileName).
  set (b := after_last (ch "/") a).
  destruct (after_last_suffix (ch "@") fileName) as [l1 H1].
  destruct (after_last_suffix (ch "/") a) as [l2 H2].
  destruct (before_first_prefix (ch ".") b) as [r H3].
  fold a in H1. fold b in H2.
  assert (∀ x, x ∈ before_first (ch ".") b → x ∈ b) as Hb.
  { intros x Hx. rewrite H3. apply elem_of_app. by left. }
  assert (∀ x, x ∈ b → x ∈ a) as Ha.
  { intros x Hx. rewrite H2. apply elem_of_app. by right. }
  split_and!.
  - exists (l1 ++ l2), r. rewrite H1 at 1. rewrite H2 at 1. rewrite H3 at 1.
    by rewrite <- !app_assoc.
  - apply before_first_notin.
  - intros Hx%Hb. by apply (after_last_notin (ch "/") a).
  - intros Hx%Hb%Ha. by apply (after_last_notin (ch "@") fileName).
Qed.

(** X17. An echo made of [audio@], a transcript, [#] and a URL is
    shown as the audio view of that transcript and that URL, provided
    neither of the two holds a [#] or an [@]. *)
Theorem audio_echo_round_trip (transcript url : jsstring) :
  ch "#" ∉ transcript → ch "@" ∉ transcript →
  ch "#" ∉ url → ch "@" ∉ url →
  render (js "audio@" ++ transcript ++ ch "#" :: url)
  = Some (AudioView (Some transcript) (Some url)).
Proof.
  intros Ht1 Ht2 Hu1 Hu2.
  set (payload := transcript ++ ch "#" :: url).
  assert (ch "@" ∉ payload) as Hp.
  { unfold payload. rewrite elem_of_app, elem_of_cons.
    intros [?|[?|?]]; done. }
  assert (after_last (ch "@") (js "audio@" ++ payload) = payload) as Hcut.
  { change (js "audio@" ++ payload) with (js "audio" ++ ch "@" :: payload).
    by rewrite after_last_app, after_last_without. }
  assert (ch "#" ∈ payload) as Hin
    by (apply elem_of_app; right; apply list_elem_of_here).
  assert (before_first (ch "#") payload = transcript) as Hbf
    by (by apply before_first_app).
  assert (after_last (ch "#") payload = url) as Hal
    by (unfold payload; by rewrite after_last_app, after_last_without).
  assert (getFileType (js "audio@" ++ payload) = Some (js "audio")) as Hft
    by (by rewrite getFileType_marker).
  unfold render, HumanMessage.onMounted, getAudio, pop, shift. cbn [fst].
  rewrite last_split, Hcut. cbn [mbind option_bind fmap option_fmap option_map].
  rewrite head_split, last_tail_split.
  rewrite (bool_decide_eq_true_2 _ Hin), Hbf, Hal.
  unfold processMessage. rewrite Hft.
  rewrite (bool_decide_eq_false_2 (Some (js "audio") = Some (js "file"))) by done.
  rewrite (bool_decide_eq_false_2 (Some (js "audio") ≠ Some (js "audio")))
    by (intros H; by apply H).
  by rewrite (bool_decide_eq_true_2 (Some (js "audio") = Some (js "audio"))).
Qed.

Lemma audio_echo_round_trip_witness :
  let transcript := js "buenos dias" in
  let url := js "blob:http://localhost/9f1c" in
  ch "#" ∉ transcript ∧ ch "@" ∉ transcript
  ∧ ch "#" ∉ url ∧ ch "@" ∉ url
  ∧ render (js "audio@" ++ transcript ++ ch "#" :: url)
    = Some (AudioView (Some transcript) (Some url)).
Proof.
  intros transcript url.
  assert (ch "#" ∉ transcript) as H1 by by_decision.
  assert (ch "@" ∉ transcript) as H2 by by_decision.
  assert (ch "#" ∉ url) as H3 by by_decision.
  assert (ch "@" ∉ url) as H4 by by_decision.
  split_and!; [exact H1 | exact H2 | exact H3 | exact H4 |].
  exact (audio_echo_round_trip transcript url H1 H2 H3 H4).
Defined.

End echo_parts.

(** ** The fence of a code region *)

Section code_fence.
Import IAMessage Spec Spec2.

Lemma greedy_word_exact {R} (w s acc : jsstring)
    (k : jsstring → jsstring → option R) r :
  Forall (λ c, is_word c = true) w →
  (∀ c s', s = c :: s' → is_word c = false) →
  k (acc ++ w) s = Some r → greedy_word (w ++ s) acc k = Some r.
Proof.
  intros Hw Hs. revert acc. induction Hw as [|c w Hc _ IH]; intros acc.
  - rewrite app_nil_r. simpl. destruct s as [|d s']; [done|].
    simpl. by rewrite (Hs d s' eq_refl).
  - intros Hk. simpl. rewrite Hc. rewrite IH; [done|]. by rewrite <- app_assoc.
Qed.

Lemma fence_at_backquote d s : d ≠ ch "`" → fence_at (d :: s) = None.
Proof.
  intros Hd. unfold fence_at. rewrite lit_startsWith.
  assert (startsWith (js "```") (d :: s) = false) as ->; [|done].
  change (startsWith (js "```") (d :: s))
    with (bool_decide (ch "`" = d) && startsWith (js "``") s).
  by rewrite bool_decide_eq_false_2 by congruence.
Qed.

Lemma fence_at_exact lang body post :
  Forall (λ c, is_word c = true) lang → ch "`" ∉ body →
  fence_at (js "```" ++ lang ++ [line_feed] ++ body ++ js "```" ++ post)
  = Some (lang, body).
Proof.
  intros Hw Hb. unfold fence_at. rewrite lit_app.
  apply greedy_word_exact; [done | by intros c s' [= <- _] |].
  rewrite app_nil_l, lit_app.
  rewrite lazy_any_first.
  - apply lazy_any_now. by rewrite app_nil_l, lit_app.
  - intros c1 c2 -> Hc2. destruct c2 as [|d c2]; [done|].
    rewrite lit_startsWith.
    assert (d ≠ ch "`") as Hd.
    { intros ->. apply Hb, elem_of_app. right. apply list_elem_of_here. }
    assert (startsWith (js "```") ((d :: c2) ++ js "```" ++ post) = false)
      as ->; [|done].
    change (startsWith (js "```") ((d :: c2) ++ js "```" ++ post))
      with (bool_decide (ch "`" = d)
            && startsWith (js "``") (c2 ++ js "```" ++ post)).
    by rewrite bool_decide_eq_false_2 by congruence.
Qed.

Lemma fence_exec_skip pre s : ch "`" ∉ pre → fence_exec (pre ++ s) = fence_exec s.
Proof.
  induction pre as [|d pre IH]; [done|]. intros [Hd Hpre]%not_elem_of_cons.
  change ((d :: pre) ++ s) with (d :: (pre ++ s)).
  change (fence_exec (d :: pre ++ s))
    with (match fence_at (d :: pre ++ s) with
          | Some r => Some r
          | None => fence_exec (pre ++ s)
          end).
  rewrite fence_at_backquote by congruence. by apply IH.
Qed.

(** X18. Of the content of a [code] region only the fence is kept: when
    the content is some text without backquote, then three backquotes,
    a language token of word units, a line feed, a body without
    backquote and three backquotes, then anything, the block has that
    language and that body, and what stands before and after the fence
    is dropped. *)
Theorem code_fence_round_trip (pre lang body post : jsstring) :
  Forall (λ c, is_word c = true) lang →
  ch "`" ∉ pre → ch "`" ∉ body →
  handler_for (js "code")
    (pre ++ js "```" ++ lang ++ [line_feed] ++ body ++ js "```" ++ post)
  = Normal (CodeBlock (cleanContent body) lang).
Proof.
  intros Hw Hpre Hbody.
  change (handler_for (js "code")) with handle_code. unfold handle_code.
  rewrite fence_exec_skip by done.
  assert (fence_exec
            (js "```" ++ lang ++ [line_feed] ++ body ++ js "```" ++ post)
          = Some (lang, body)) as ->; [|done].
  pose proof (fence_at_exact lang body post Hw Hbody) as H.
  change (js "```" ++ lang ++ [line_feed] ++ body ++ js "```" ++ post)
    with (ch "`" :: (js "``" ++ lang ++ [line_feed] ++ body ++ js "```" ++ post))
    in H |- *.
  cbn [fence_exec]. by rewrite H.
Qed.

Lemma code_fence_round_trip_witness :
  let pre := js "Try: " in
  let lang := js "py" in
  let body := js "print(1)" in
  let post := js " and see" in
  Forall (λ c, is_word c = true) lang
  ∧ ch "`" ∉ pre ∧ ch "`" ∉ body
  ∧ handler_for (js "code")
      (pre ++ js "```" ++ lang ++ [line_feed] ++ body ++ js "```" ++ post)
    = Normal (CodeBlock (cleanContent body) lang).
Proof.
  intros pre lang body post.
  assert (Forall (λ c, is_word c = true) lang) as H1 by (repeat constructor).
  assert (ch "`" ∉ pre) as H2 by by_decision.
  assert (ch "`" ∉ body) as H3 by by_decision.
  split_and!; [exact H1 | exact H2 | exact H3 |].
  exact (code_fence_round_trip pre lang body post H1 H2 H3).
Defined.

End code_fence.

(** ** The colour of a file card *)

Section file_colour.
Import DocCard Spec Spec2.

Lemma upper_unit_idemp c : upper_unit (upper_unit c) = upper_unit c.
Proof.
  unfold upper_unit.
  destruct ((97 <=? c) && (c <=? 122))%N eqn:E; [|by rewrite E].
  apply andb_prop in E as [E1%N.leb_le E2%N.leb_le].
  assert ((97 <=? c - 32) = false)%N as -> by (apply N.leb_gt; lia). done.
Qed.

Lemma upper_unit_ascii c : (c <? 128)%N = true → (upper_unit c <? 128)%N = true.
Proof.
  unfold upper_unit. intros H%N.ltb_lt.
  destruct ((97 <=? c) && (c <=? 122))%N; apply N.ltb_lt; lia.
Qed.

Lemma upper_unit_dot c : upper_unit c = ch "." → c = ch ".".
Proof.
  unfold upper_unit. change (ch ".") with 46%N.
  destruct ((97 <=? c) && (c <=? 122))%N eqn:E; [|done].
  apply andb_prop in E as [E1%N.leb_le E2%N.leb_le]. lia.
Qed.

Lemma upper_ascii (s : jsstring) : is_ascii s = true → is_ascii (upper_unit <$> s) = true.
Proof.
  unfold is_ascii. induction s as [|c s IH]; [done|].
  change (forallb (λ c, (c <? 128)%N) (c :: s) = true
          → (upper_unit c <? 128)%N
            && forallb (λ c, (c <? 128)%N) (upper_unit <$> s) = true).
  intros [Hc Hs]%andb_prop.
  apply andb_true_intro. split; [by apply upper_unit_ascii | by apply IH].
Qed.

Lemma upper_no_dot (s : jsstring) : ch "." ∉ s → ch "." ∉ upper_unit <$> s.
Proof.
  intros Hs (c & Hc & Hin)%list_elem_of_fmap.
  symmetry in Hc. apply upper_unit_dot in Hc as ->. done.
Qed.

Lemma toUpperCase_ascii beyond_ascii (s : jsstring) :
  is_ascii s = true → toUpperCase beyond_ascii s = upper_unit <$> s.
Proof. unfold toUpperCase, is_ascii. by intros ->. Qed.

Lemma getFileType_extension beyond_ascii (stem ext : jsstring) :
  ch "." ∉ ext → is_ascii ext = true →
  getFileType beyond_ascii (stem ++ ch "." :: ext)
  = Some (if bool_decide (ext = []) then js "DOC" else upper_unit <$> ext).
Proof.
  intros Hd Ha. unfold getFileType, pop. cbn [fst].
  rewrite last_split, after_last_app, after_last_without by done.
  cbn [mbind option_bind]. rewrite toUpperCase_ascii by done.
  unfold ChatView.truthy_string. destruct ext as [|c ext]; [done|].
  rewrite (bool_decide_eq_false_2 (c :: ext = [])) by done.
  by rewrite bool_decide_eq_false_2.
Qed.

Lemma getFileType_bare beyond_ascii (ext : jsstring) :
  ch "." ∉ ext → is_ascii ext = true →
  getFileType beyond_ascii ext
  = Some (if bool_decide (ext = []) then js "DOC" else upper_unit <$> ext).
Proof.
  intros Hd Ha. unfold getFileType, pop. cbn [fst].
  rewrite last_split, after_last_without by done.
  cbn [mbind option_bind]. rewrite toUpperCase_ascii by done.
  unfold ChatView.truthy_string. destruct ext as [|c ext]; [done|].
  rewrite (bool_decide_eq_false_2 (c :: ext = [])) by done.
  by rewrite bool_decide_eq_false_2.
Qed.

(** X19. The type and the colour of a file card depend only on what
    follows the last [.] of the name, without regard to the case of
    ASCII letters: the type is that extension in upper case, or [DOC]
    when the name ends with the dot; a name without any dot is taken
    whole as its own extension. *)
Theorem file_card_by_extension (beyond_ascii : jsstring → jsstring)
    (stem ext : jsstring) :
  ch "." ∉ ext → is_ascii ext = true →
  getFileType beyond_ascii (stem ++ ch "." :: ext)
  = Some (if bool_decide (ext = []) then js "DOC" else upper_unit <$> ext)
  ∧ getBackgroundColor beyond_ascii (stem ++ ch "." :: ext)
    = getBackgroundColor beyond_ascii ext
  ∧ getBackgroundColor beyond_ascii (stem ++ ch "." :: ext)
    = getBackgroundColor beyond_ascii (stem ++ ch "." :: (upper_unit <$> ext)).
Proof.
  intros Hd Ha. split_and!.
  - by apply getFileType_extension.
  - unfold getBackgroundColor.
    by rewrite getFileType_extension, getFileType_bare.
  - unfold getBackgroundColor.
    rewrite !getFileType_extension
      by first [done | by apply upper_no_dot | by apply upper_ascii].
    assert (upper_unit <$> (upper_unit <$> ext) = upper_unit <$> ext) as ->.
    { rewrite <- list_fmap_compose. apply list_fmap_ext.
      intros i c _. apply upper_unit_idemp. }
    destruct ext; done.
Qed.

Lemma file_card_by_extension_witness :
  let stem := js "informe.final" in
  let ext := js "Pdf" in
  ch "." ∉ ext ∧ is_ascii ext = true
  ∧ getFileType (λ s, s) (stem ++ ch "." :: ext)
    = Some (if bool_decide (ext = []) then js "DOC" else upper_unit <$> ext)
  ∧ getBackgroundColor (λ s, s) (stem ++ ch "." :: ext)
    = getBackgroundColor (λ s, s) ext
  ∧ getBackgroundColor (λ s, s) (stem ++ ch "." :: ext)
    = getBackgroundColor (λ s, s) (stem ++ ch "." :: (upper_unit <$> ext)).
Proof.
  intros stem ext.
  assert (ch "." ∉ ext) as H1 by by_decision.
  assert (is_ascii ext = true) as H2 by reflexivity.
  split_and!; [exact H1 | exact H2 | ..];
    apply (file_card_by_extension (λ s, s) stem ext H1 H2).
Defined.

End file_colour.

(** ** The generic fallback *)

Section generic_fallback.
Import IAMessage Spec Spec2.

Lemma regex_matches_kind text m : m ∈ regex_matches text → m_p1 m ∈ kinds.
Proof. intros Hin. eapply well_placed_kinds; [apply regex_matches_placed | done]. Qed.

Lemma not_bad_returns m :
  m_p1 m ∈ kinds → ¬ bad_payload m →
  ∃ b, handler_for (m_p1 m) (m_p2 m) = Normal b.
Proof.
  intros Hk Hn. destruct (handler_for (m_p1 m) (m_p2 m)) as [b|e] eqn:E.
  - by eexists.
  - destruct Hn. by eapply handler_for_throws.
Qed.

Lemma earlier_matches_return text ms1 m ms2 :
  regex_matches text = ms1 ++ m :: ms2 →
  Forall (λ m', ¬ bad_payload m') ms1 →
  ∃ st, run_replacer text (PM 0 []) ms1 = (st, None).
Proof.
  intros Hms Hall. apply run_replacer_returns. intros m' Hin.
  apply not_bad_returns.
  - apply (regex_matches_kind text). rewrite Hms. apply elem_of_app. by left.
  - rewrite Forall_forall in Hall. by apply Hall.
Qed.

(** A match whose handler returns has its block among the entries, at
    its span, when no match before it has thrown. *)
Lemma match_block_emitted text ms1 m ms2 st b :
  regex_matches text = ms1 ++ m :: ms2 →
  run_replacer text (PM 0 []) ms1 = (st, None) →
  handler_for (m_p1 m) (m_p2 m) = Normal b →
  (match_span m, b) ∈ (processMessage_spans text []).1.
Proof.
  intros Hms Hrun Hb.
  destruct (run_replacer text (PM 0 []) (regex_matches text)) as [st' err] eqn:E.
  eapply processMessage_spans_kept; [exact E|].
  rewrite Hms, run_replacer_app, Hrun in E. cbn [run_replacer] in E.
  pose proof (replacer_spec text st m) as Hs. rewrite Hb in Hs.
  destruct Hs as (st1 & Hrep & _ & He). rewrite Hrep in E.
  eapply run_replacer_kept; [exact E|].
  rewrite He, !elem_of_app. right. right. apply list_elem_of_here.
Qed.

Lemma region_is_matched k pre c post :
  k ∈ kinds → 60%N ∉ pre → ¬ occurs (js "</" ++ k ++ js ">") c →
  ∃ ms, regex_matches (pre ++ region k c ++ post)
        = RMatch (region k c) k c (length pre) :: ms.
Proof.
  intros Hk Hpre Hc. unfold regex_matches.
  rewrite matches_from_skip by done. rewrite Nat.add_0_l.
  pose proof (regex_at_region k c post Hk Hc) as Hr.
  assert (js "<" ++ k ++ js ">" ++ c ++ js "</" ++ k ++ js ">" ++ post
          = region k c ++ post) as Heq by (unfold region; by rewrite <- !app_assoc).
  rewrite Heq in Hr.
  rewrite (matches_from_hit_exact _ _ _ _ _ _ Hr) by lia.
  rewrite length_app.
  replace (length (region k c) + length post - length post)
    with (length (region k c)) by lia.
  rewrite take_app_length. by eexists.
Qed.

(** C2 (as amended): the pattern matches the regions of eight tag
    names and of no other. For every message and every region the
    pattern matches in it whose name is one of the four without a
    handler of their own ([citations], [table], [doc], [image]), the
    generic block is emitted at the place of the region, wherever it
    stands, provided no region before it has a payload that makes its
    handler throw: the kind of the block is the tag name, its payload
    the content, trimmed and rendered. A region of any of the eight
    names that follows text without [<] and whose content does not hold
    its closing tag is matched; no match and no block has another name. *)
Theorem C2_generic_fallback (text : jsstring) (ms1 ms2 : list rmatch)
    (m : rmatch) :
  regex_matches text = ms1 ++ m :: ms2 →
  m_p1 m ∈ generic_kinds →
  Forall (λ m', ¬ bad_payload m') ms1 →
  m_match m = region (m_p1 m) (m_p2 m)
  ∧ (match_span m, Block (m_p1 m) (Marked true (trim (m_p2 m))))
      ∈ (processMessage_spans text []).1
  ∧ Block (m_p1 m) (Marked true (trim (m_p2 m))) ∈ (processMessage text).1
  ∧ (∀ k pre c post,
       k ∈ kinds → ch "<" ∉ pre →
       contains (js "</" ++ k ++ js ">") c = false →
       ∃ ms, regex_matches (pre ++ region k c ++ post)
             = RMatch (region k c) k c (length pre) :: ms)
  ∧ (∀ text' m', m' ∈ regex_matches text' → m_p1 m' ∈ kinds)
  ∧ (∀ text' b, b ∈ (processMessage text').1 → block_type b ∈ js "text" :: kinds).
Proof.
  intros Hms Hk Hall.
  assert (m ∈ regex_matches text) as Hin
    by (rewrite Hms; apply elem_of_app; right; apply list_elem_of_here).
  destruct (earlier_matches_return text ms1 m ms2 Hms Hall) as [st Hrun].
  pose proof (match_block_emitted text ms1 m ms2 st _ Hms Hrun
                (handler_for_generic _ (m_p2 m) Hk)) as Hentry.
  split_and!.
  - by apply (matches_from_shape text text 0 0 m (drop_0 _)).
  - exact Hentry.
  - unfold processMessage.
    destruct (processMessage_spans text []) as [es err]. simpl in *.
    apply list_elem_of_fmap. by eexists (_, _).
  - intros k pre c post Hk' Hpre Hc. apply region_is_matched; [done..|].
    intros Ho%occurs_contains. congruence.
  - apply regex_matches_kind.
  - apply processMessage_block_types.
Qed.

Lemma C2_generic_fallback_witness :
  let text :=
    js "See <citations>[1] Spec</citations> results: <table><tr><td>A</td></tr></table>" in
  let m1 := RMatch (js "<citations>[1] Spec</citations>") (js "citations")
              (js "[1] Spec") 4 in
  let m := RMatch (js "<table><tr><td>A</td></tr></table>") (js "table")
             (js "<tr><td>A</td></tr>") 45 in
  regex_matches text = [m1] ++ m :: []
  ∧ m_p1 m ∈ generic_kinds
  ∧ Forall (λ m', ¬ bad_payload m') [m1]
  ∧ (match_span m, Block (m_p1 m) (Marked true (trim (m_p2 m))))
      ∈ (processMessage_spans text []).1
  ∧ Block (js "table") (Marked true (js "<tr><td>A</td></tr>"))
      ∈ (processMessage text).1.
Proof.
  intros text m1 m.
  assert (regex_matches text = [m1] ++ m :: []) as H1 by (vm_compute; reflexivity).
  assert (m_p1 m ∈ generic_kinds) as H2 by by_decision.
  assert (Forall (λ m', ¬ bad_payload m') [m1]) as H3.
  { apply Forall_singleton. intros [[H _]|[H _]]; revert H; by_decision. }
  split_and!; [exact H1 | exact H2 | exact H3 | ..];
    apply (C2_generic_fallback text [m1] [] m H1 H2 H3).
Defined.

(** C2 as worded fails on its own example: [foo] is not a name of the
    pattern, the region is not matched and the whole message is one
    [text] block; no block of kind [foo] exists. *)
Lemma C2_counterexample :
  let text := js "<foo>bar</foo>" in
  processMessage text = ([Block (js "text") (cleanContent text)], None)
  ∧ ¬ (∃ b, b ∈ (processMessage text).1 ∧ block_type b = js "foo").
Proof.
  intros text. split; [vm_compute; reflexivity|].
  intros (b & Hin & Hty). vm_compute in Hin.
  apply list_elem_of_singleton in Hin as ->. vm_compute in Hty. discriminate.
Qed.

End generic_fallback.

(** ** Malformed structured payloads *)

Section malformed_payload.
Import IAMessage Spec Spec2 Bubbles.

Lemma bad_payload_error m :
  bad_payload m →
  ∃ e, handler_for (m_p1 m) (m_p2 m) = Throw e
    ∧ (JSON_parse (m_p2 m) = Throw SyntaxError → e = SyntaxError)
    ∧ (JSON_parse (m_p2 m) = Normal JNull → e = TypeError).
Proof.
  intros [[Hk Hj]|[Hk Hj]].
  - exists SyntaxError. split_and!; [by apply handler_for_structured | done |].
    by rewrite Hj.
  - exists TypeError. split_and!; [| by rewrite Hj | done].
    revert Hk. rewrite !elem_of_cons, elem_of_nil. intros [Hk|[Hk|[]]]; rewrite Hk.
    + change (handle_chart (m_p2 m) = Throw TypeError). unfold handle_chart.
      by rewrite Hj.
    + change (handle_map (m_p2 m) = Throw TypeError). unfold handle_map.
      by rewrite Hj.
Qed.

Lemma mount_spec (i : nat) (v : view) (b : bubble) (messageText : jsstring)
    (blocks : list block) (err : option js_error) :
  bubbles v !! i = Some b → isLoading (msg b) = false →
  text (msg b) = Some messageText →
  processMessage messageText = (blocks, err) →
  (mount i v).2 = err
  ∧ view_page (mount i v).1 = view_page v
  ∧ bubbles (mount i v).1
    = <[i := Bubble (msg b) (extractedContent b ++ blocks)]> (bubbles v)
  ∧ ∀ j, j ≠ i → bubbles (mount i v).1 !! j = bubbles v !! j.
Proof.
  intros Hb Hl Ht Hp. unfold mount, onMounted. rewrite Hb, Hl, Ht, Hp.
  cbn [fst snd view_page bubbles]. split_and!; [done..|].
  intros j Hj. by rewrite list_lookup_insert_ne.
Qed.

(** C3 (as amended): a [chart], [card] or [map] region is malformed
    for the code exactly when [JSON.parse] rejects its content, or,
    for [chart] and [map], when the content is the JSON [null]; JSON of
    any other shape is accepted and gives a block. On a malformed
    region the handler throws (a [SyntaxError], or a [TypeError] for
    [null]) and nothing handles it; the one policy, the same for the
    three kinds, is that the parse stops at the region: the entries
    made before it stay, the text just before it included, the
    malformed block and all that follows are not emitted, and the
    exception leaves the mount hook of the bubble. The failure is local
    in that the hook has written to the block list of its own bubble
    only: the page and every other bubble are as they were. *)
Theorem C3_malformed_payload_stops (messageText : jsstring)
    (ms1 ms2 : list rmatch) (m : rmatch) (st : pm_state) :
  regex_matches messageText = ms1 ++ m :: ms2 →
  run_replacer messageText (PM 0 []) ms1 = (st, None) →
  m_p1 m ∈ structured_kinds →
  let kept :=
    entries st ++ gap_entries messageText (lastIndex st) (m_offset m) in
  (bad_payload m →
     ∃ e, handler_for (m_p1 m) (m_p2 m) = Throw e
       ∧ (JSON_parse (m_p2 m) = Throw SyntaxError → e = SyntaxError)
       ∧ (JSON_parse (m_p2 m) = Normal JNull → e = TypeError)
       ∧ processMessage_spans messageText [] = (kept, Some e)
       ∧ processMessage messageText = (kept.*2, Some e)
       ∧ ∀ (v : view) (i : nat) (b : bubble),
           bubbles v !! i = Some b → isLoading (msg b) = false →
           text (msg b) = Some messageText →
           (mount i v).2 = Some e
           ∧ view_page (mount i v).1 = view_page v
           ∧ bubbles (mount i v).1
             = <[i := Bubble (msg b) (extractedContent b ++ kept.*2)]> (bubbles v)
           ∧ ∀ j, j ≠ i → bubbles (mount i v).1 !! j = bubbles v !! j)
  ∧ (¬ bad_payload m →
     ∃ b st', handler_for (m_p1 m) (m_p2 m) = Normal b
       ∧ run_replacer messageText (PM 0 []) (ms1 ++ [m]) = (st', None)
       ∧ entries st' = kept ++ [(match_span m, b)]).
Proof.
  intros Hms Hrun Hk kept. split.
  - intros (e & He & Hsyn & Hnull)%bad_payload_error.
    assert (processMessage_spans messageText [] = (kept, Some e)) as H.
    { unfold processMessage_spans. rewrite Hms, run_replacer_app, Hrun.
      cbn [run_replacer].
      pose proof (replacer_spec messageText st m) as Hs. rewrite He in Hs.
      by destruct Hs as (st1 & -> & _ & ->). }
    assert (processMessage messageText = (kept.*2, Some e)) as H'
      by (unfold processMessage; by rewrite H).
    exists e. split_and!; [done..|].
    intros v i b Hb Hl Ht. by apply (mount_spec i v b messageText).
  - intros Hn.
    assert (m_p1 m ∈ kinds) as Hk'.
    { apply (regex_matches_kind messageText). rewrite Hms.
      apply elem_of_app. right. apply list_elem_of_here. }
    destruct (not_bad_returns m Hk' Hn) as [b Hb].
    pose proof (replacer_spec messageText st m) as Hs. rewrite Hb in Hs.
    destruct Hs as (st1 & Hrep & _ & He).
    exists b, st1. split_and!; [done | | by rewrite He, app_assoc].
    rewrite run_replacer_app, Hrun. cbn [run_replacer]. by rewrite Hrep.
Qed.

Lemma C3_malformed_payload_stops_witness :
  let messageText := js "hi <map>null</map> bye" in
  let m := RMatch (js "<map>null</map>") (js "map") (js "null") 3 in
  let st := PM 0 [] in
  regex_matches messageText = [] ++ m :: []
  ∧ run_replacer messageText (PM 0 []) [] = (st, None)
  ∧ m_p1 m ∈ structured_kinds
  ∧ bad_payload m
  ∧ processMessage messageText
    = ([Block (js "text") (Marked true (js "hi"))], Some TypeError).
Proof.
  intros messageText m st.
  assert (regex_matches messageText = [] ++ m :: []) as H1
    by (vm_compute; reflexivity).
  assert (run_replacer messageText (PM 0 []) [] = (st, None)) as H2 by reflexivity.
  assert (m_p1 m ∈ structured_kinds) as H3 by by_decision.
  assert (bad_payload m) as H4.
  { right. split; [by_decision | vm_compute; reflexivity]. }
  split_and!; [exact H1 | exact H2 | exact H3 | exact H4 |].
  destruct (C3_malformed_payload_stops messageText [] [] m st H1 H2 H3)
    as [Hbad _].
  destruct (Hbad H4) as (e & _ & _ & Hnull & _ & Hp & _).
  rewrite Hp, (Hnull eq_refl). reflexivity.
Defined.

(** C3 as worded fails. With a chart payload that is not JSON between
    two pieces of text, the blocks left are neither those of the
    message without the malformed block (skip that block), nor none at
    all (abort the whole parse): the text before the region stays and
    the text after it is lost. Nothing handles the condition: the
    exception leaves the mount hook of the bubble. And a payload that
    is JSON but not of the expected form, a bare number, signals
    nothing: it gives a chart block without type and data. *)
Lemma C3_counterexample :
  let text := js "hi <chart>x</chart> bye" in
  processMessage text = ([Block (js "text") (cleanContent (js "hi"))], Some SyntaxError)
  ∧ (processMessage text).1 ≠ skip_block_policy text
  ∧ (processMessage text).1 ≠ abort_parse_policy
  ∧ (onMounted
       (Bubble (Message (Some (IdRandom 1)) false (Some text) false (Some false)
                  false None) [])).2 = Some SyntaxError
  ∧ processMessage (js "<chart>5</chart>")
    = ([ChartBlock None None (JObject [])], None).
Proof.
  vm_compute.
  split_and!; [reflexivity | discriminate | discriminate | reflexivity | reflexivity].
Qed.

End malformed_payload.

(** ** A failed request *)

Section failed_request.
Import ContentChat ChatView ChatEvents.

Lemma nonempty_user isLoading newMessage ms :
  handleUserMessage isLoading newMessage ms ≠ [].
Proof.
  unfold handleUserMessage. destruct isLoading; by intros [_ [=]]%app_nil.
Qed.

Lemma nonempty_bot isLoading newMessage ms :
  handleBotMessage isLoading newMessage ms ≠ [].
Proof.
  unfold handleBotMessage. destruct isLoading; by intros [_ [=]]%app_nil.
Qed.

Lemma nonempty_handle e p : messages p ≠ [] → messages (handle e p) ≠ [].
Proof.
  intros Hp. destruct e as [random|m|s random|fileName network|random];
    cbn [handle].
  - apply nonempty_bot.
  - unfold UpChat. case_bool_decide; [apply nonempty_user|].
    case_bool_decide; [apply nonempty_bot | done].
  - destruct s; apply nonempty_bot.
  - unfold loadAttachment.
    destruct (requestAttachment network); apply nonempty_bot.
  - unfold cleanChat, cleanMessages. cbn [messages].
    case_bool_decide; [apply nonempty_bot | done].
Qed.

Lemma nonempty_run events : ∀ p, messages p ≠ [] → messages (run events p) ≠ [].
Proof.
  induction events as [|e events IH]; intros p Hp; [done|].
  by apply IH, nonempty_handle.
Qed.

(** C8 (as amended): when the request of [fetchCHAT] is rejected, one
    error message is added in the place of the message that is last in
    the list at that moment, and the storage, the session identifier
    with it, is never written. When nothing has touched the list since
    the send, the message replaced is the pending placeholder of the
    request: the list as the send left it, some [prior] messages and
    the placeholder, becomes [prior] followed by the error message.
    Whatever happened to the view in between (another send, an upload,
    a cleaning, a late reply), all messages but the last stay, the
    length of the list is kept and the storage is as it was just
    before the failure. *)
Theorem C8_request_failure (msg : jsstring) (random : N) (p : page) :
  (∃ prior,
     messages (fetchCHAT_send msg p).1
     = prior ++ [Message None false None true None false None]
     ∧ messages (fetchCHAT msg Rejected random p)
       = prior ++ [set_isFirst false (error_message random)]
     ∧ isError (set_isFirst false (error_message random)) = true
     ∧ localStorage (fetchCHAT msg Rejected random p) = localStorage p)
  ∧ ∀ events : list event,
      let q := run events (fetchCHAT_send msg p).1 in
      localStorage (fetchCHAT_settle Rejected random q) = localStorage q
      ∧ length (messages (fetchCHAT_settle Rejected random q))
        = length (messages q)
      ∧ ∃ prior lastMessage,
          messages q = prior ++ [lastMessage]
          ∧ messages (fetchCHAT_settle Rejected random q)
            = prior ++ [set_isFirst false (error_message random)].
Proof.
  split.
  - exists (addMessage true false (Text msg) (messages p)).
    unfold fetchCHAT, fetchCHAT_send. cbn [fst].
    set (ms1 := addMessage true false (Text msg) (messages p)).
    assert (addMessage false true (Text []) ms1
            = ms1 ++ [Message None false None true None false None]) as ->
      by reflexivity.
    rewrite fetchCHAT_settle_rejected. by split_and!.
  - intros events q.
    assert (messages q ≠ []) as Hq.
    { apply nonempty_run. unfold fetchCHAT_send. cbn [fst messages].
      apply nonempty_bot. }
    clearbody q.
    assert (∃ prior lastMessage, messages q = prior ++ [lastMessage])
      as (prior & lastMessage & E).
    { destruct (messages q) as [|x ms _] using rev_ind; [done | by eexists _, _]. }
    destruct q as [qm qs]. cbn [messages localStorage] in *. subst qm.
    rewrite fetchCHAT_settle_rejected. cbn [localStorage messages].
    split_and!; [done | by rewrite !length_app | by eexists _, _].
Qed.

(** C8 as worded fails when the chat is cleaned while the request is
    pending: the failure then replaces the greeting, a message that is
    no placeholder, and the list holds the error message alone. *)
Lemma C8_counterexample :
  let mounted := onMounted 1 (Page [] ∅) in
  let sent := (fetchCHAT_send (js "hola") mounted).1 in
  let cleaned := cleanChat 2 sent in
  let failed := fetchCHAT_settle Rejected 3 cleaned in
  messages cleaned = [set_isFirst true (greeting 2)]
  ∧ isLoading (set_isFirst true (greeting 2)) = false
  ∧ messages failed = [set_isFirst false (error_message 3)]
  ∧ set_isFirst true (greeting 2) ∉ messages failed.
Proof.
  intros mounted sent cleaned failed.
  assert (messages cleaned = [set_isFirst true (greeting 2)]) as H1
    by (vm_compute; reflexivity).
  assert (messages failed = [set_isFirst false (error_message 3)]) as H2
    by (vm_compute; reflexivity).
  split_and!; [exact H1 | reflexivity | exact H2 |].
  rewrite H2. intros Hin%list_elem_of_singleton. discriminate Hin.
Qed.

End failed_request.
